(** * django-seeker: the indexing pipeline of [seeker/mapping.py] and the
    registry of [seeker/registry.py], embedded and verified.

    The development follows the two source files:
    - [PyStr]: the string operations the code relies on ([str.split('__')],
      ['__'.join], ['get_%s_display' % part], [str] of an integer);
    - [Mapping]: the object model of the relational layer, [follow],
      [Indexable.get_objects], [get_id], [get_data], [document_field] and
      [document_from_model];
    - [Registry]: the process-wide tables and [register];
    - [Scenario]: the records of the scenario of the specification;
    - [PyStrFacts], [MappingFacts], [BatchFacts], [DataFacts],
      [SchemaFacts], [RegistryFacts]: the properties, and [Examples]: the
      code evaluated on the scenario. *)

From Stdlib Require Import ZArith Lia List Ascii String.
From Stdlib Require Import DecimalString DecimalPos DecimalZ.
From stdpp Require Import base option list gmap strings.

Set Warnings "-register-all".
Local Open Scope Z_scope.

(** ** Exceptions and fallible results *)

(** The Python exceptions that the modelled code can raise, and [OutOfFuel],
    the bound of the recursion of [Mapping.follow_fuel] (never reached from
    [Mapping.follow], see [MappingFacts.follow_terminates]). *)
Inductive exn : Type :=
  | TypeError
  | AttributeError
  | AssertionError
  | ValueError
  | OutOfFuel.

Inductive result (A : Type) : Type :=
  | Ok (a : A)
  | Raise (e : exn).

Arguments Ok {A} a.
Arguments Raise {A} e.

Definition bind {A B : Type} (r : result A) (k : A → result B) : result B :=
  match r with
  | Ok a => k a
  | Raise e => Raise e
  end.

Notation "'do' x <- r ; k" := (bind r (fun x => k))
  (at level 10, x name, r at level 100, k at level 200).

(** A comprehension [[f(o) for o in l]]: the first exception aborts it. *)
Fixpoint map_results {A B : Type} (f : A → result B) (l : list A)
  : result (list B) :=
  match l with
  | [] => Ok []
  | a :: l' =>
      do b <- f a;
      do bs <- map_results f l';
      Ok (b :: bs)
  end.

(** ** Strings *)

Module PyStr.

Definition is_underscore (c : ascii) : bool := Ascii.eqb c "_"%char.

(** [s.split('__')]: cut at every occurrence of the separator, scanning from
    the left; always at least one part. *)
Fixpoint split_dunder (s : string) : list string :=
  match s with
  | EmptyString => [EmptyString]
  | String c s1 =>
      let keep :=
        match split_dunder s1 with
        | p :: ps => String c p :: ps
        | [] => [String c EmptyString]
        end in
      if is_underscore c then
        match s1 with
        | String c2 s2 =>
            if is_underscore c2 then EmptyString :: split_dunder s2 else keep
        | EmptyString => keep
        end
      else keep
  end.

(** [sep.join(xs)] *)
Fixpoint join (sep : string) (xs : list string) : string :=
  match xs with
  | [] => EmptyString
  | x :: rest =>
      match rest with
      | [] => x
      | _ :: _ => x +:+ sep +:+ join sep rest
      end
  end.

Definition dunder : string := "__".

(** [path.split('__') if path else []] *)
Definition path_parts (path : string) : list string :=
  match path with
  | EmptyString => []
  | String _ _ => split_dunder path
  end.

(** ['get_%s_display' % part] *)
Definition display_name (part : string) : string :=
  "get_" +:+ part +:+ "_display".

(** Whether ["__"] occurs in [s]. *)
Fixpoint has_dunder (s : string) : bool :=
  match s with
  | EmptyString => false
  | String c s1 =>
      (is_underscore c &&
       match s1 with
       | String c2 _ => is_underscore c2
       | EmptyString => false
       end) || has_dunder s1
  end.

(** A segment that a following ["__"] delimits: no separator starts inside
    it, not even at its last character. *)
Definition segment (s : string) : bool := negb (has_dunder (s +:+ "_")).

(** The shape of a split path: every part but the last is a [segment], and
    the last holds no separator. *)
Fixpoint canonical (parts : list string) : bool :=
  match parts with
  | [] => false
  | p :: rest =>
      match rest with
      | [] => negb (has_dunder p)
      | _ :: _ => segment p && canonical rest
      end
  end.

(** [str(z)] for a Python integer. *)
Definition str_of_int (z : Z) : string :=
  NilZero.string_of_int (Z.to_int z).

End PyStr.

Import PyStr.

(** ** seeker/mapping.py *)

Module Mapping.

(** *** The objects of the relational layer

    A Python value as [follow] sees it: what [isinstance] answers for
    [models.Model] and [models.Manager], what [getattr] finds, and what
    calling an attribute returns. *)
Inductive value : Type :=
  | VNone
  | VBool (b : bool)
  | VInt (z : Z)
  | VStr (s : string)
  | VList (xs : list value)
  (** a bound method of no argument, returning [ret] when called *)
  | VMethod (ret : value)
  (** an instance of [models.Model]: [six.text_type(obj)] and its
      attributes, methods included *)
  | VModel (text : string) (attrs : list (string * value))
  (** an instance of [models.Manager]: the records [obj.all()] iterates *)
  | VManager (related : list value)
  (** an instance of any other class *)
  | VObject (attrs : list (string * value)).

(** First binding of [name], as attribute lookup on an instance. *)
Fixpoint assoc {A : Type} (name : string) (attrs : list (string * A))
  : option A :=
  match attrs with
  | [] => None
  | (k, v) :: attrs' => if String.eqb k name then Some v else assoc name attrs'
  end.

(** [obj.all()] when [isinstance(obj, models.Manager)] *)
Definition manager_all (v : value) : option (list value) :=
  match v with
  | VManager related => Some related
  | _ => None
  end.

Definition is_model (v : value) : bool :=
  match v with
  | VModel _ _ => true
  | _ => false
  end.

(** [v()] *)
Definition call (v : value) : result value :=
  match v with
  | VMethod ret => Ok ret
  | _ => Raise TypeError
  end.


Section WithNatives.

(** The attributes that the classes of Python and Django themselves give to
    booleans, integers, strings, lists, bound methods and managers
    ([str.upper], [int.real], [Manager.all], ...): not enumerated here, the
    results below hold whatever they are. *)
Variable native_attr : value → string → option value.

(** [str(v)] for the values whose text the model does not fix. *)
Variable native_str : value → string.

(** [getattr(v, name)], [None] standing for [AttributeError]. The only
    attributes of Python's [None] are double-underscore names, which no
    segment of a split path and no [get_..._display] name can be. A read
    that raises another exception has no counterpart here: what is proved
    below is about reads that return or find nothing. *)
Definition get_attr (v : value) (name : string) : option value :=
  match v with
  | VNone => None
  | VModel _ attrs => assoc name attrs
  | VObject attrs => assoc name attrs
  | _ => native_attr v name
  end.

(** [hasattr(v, name)] *)
Definition has_attr (v : value) (name : string) : bool :=
  match get_attr v name with
  | Some _ => true
  | None => false
  end.

(** [str(v)] / [six.text_type(v)] *)
Definition text_type (v : value) : string :=
  match v with
  | VNone => "None"
  | VBool true => "True"
  | VBool false => "False"
  | VInt z => str_of_int z
  | VStr s => s
  | VModel text _ => text
  | _ => native_str v
  end.

(** The body of [follow] once [parts] is computed; [self] is [follow]
    itself, called on the related records of a manager. *)
Fixpoint follow_loop (self : value → string → result value)
    (obj : value) (parts : list string) : result value :=
  match parts with
  | [] =>
      if is_model obj then Ok (VStr (text_type obj)) else Ok obj
  | part :: rest =>
      if has_attr obj (display_name part) then
        match get_attr obj (display_name part) with
        | Some m => call m
        | None => Raise AttributeError
        end
      else
        let obj' := default VNone (get_attr obj part) in
        match manager_all obj' with
        | Some related =>
            let new_path := join dunder rest in
            do vs <- map_results (fun o => self o new_path) related;
            Ok (VList vs)
        | None => follow_loop self obj' rest
        end
  end.

Fixpoint follow_fuel (fuel : nat) (obj : value) (path : string)
  : result value :=
  match fuel with
  | O => Raise OutOfFuel
  | S fuel' => follow_loop (follow_fuel fuel') obj (path_parts path)
  end.

(** [follow(obj, path)]: every recursive call is on a strictly shorter
    path, so [S (length path)] nested calls are enough. *)
Definition follow (obj : value) (path : string) : result value :=
  follow_fuel (S (String.length path)) obj path.

(** [follow] on the list of segments, without joining and splitting the
    rest of the path at a relation. Only a rest reduced to one empty
    segment differs once joined: it is the empty path, of no segment. *)
Fixpoint follow_parts (obj : value) (parts : list string) : result value :=
  match parts with
  | [] =>
      if is_model obj then Ok (VStr (text_type obj)) else Ok obj
  | part :: rest =>
      if has_attr obj (display_name part) then
        match get_attr obj (display_name part) with
        | Some m => call m
        | None => Raise AttributeError
        end
      else
        let obj' := default VNone (get_attr obj part) in
        match manager_all obj' with
        | Some related =>
            do vs <- map_results
                       (fun o =>
                          match rest with
                          | [ EmptyString ] =>
                              if is_model o then Ok (VStr (text_type o))
                              else Ok o
                          | _ => follow_parts o rest
                          end) related;
            Ok (VList vs)
        | None => follow_parts obj' rest
        end
  end.

(** The object the loop of [follow] holds after the segments [pre], when
    none of them is display-valued or a to-many relation. *)
Fixpoint walk (obj : value) (pre : list string) : option value :=
  match pre with
  | [] => Some obj
  | part :: pre' =>
      if has_attr obj (display_name part) then None
      else
        let obj' := default VNone (get_attr obj part) in
        match manager_all obj' with
        | Some _ => None
        | None => walk obj' pre'
        end
  end.

(** [Indexable.get_id]: [str(obj.pk)] *)
Definition get_id (obj : value) : result string :=
  match get_attr obj "pk" with
  | Some pk => Ok (text_type pk)
  | None => Raise AttributeError
  end.

(** The loop of [Indexable.get_data] over the names of
    [cls._doc_type.mapping], [data] being the dictionary built so far. *)
Fixpoint get_data_loop (obj : value) (names : list string)
    (data : gmap string value) : result (gmap string value) :=
  match names with
  | [] => Ok data
  | name :: names' =>
      do v <- follow obj name;
      get_data_loop obj names' (<[name := v]> data)
  end.

(** [Indexable.get_data], [mapping] listing the field names in the order
    the mapping iterates them. *)
Definition get_data (mapping : list string) (obj : value)
  : result (gmap string value) :=
  get_data_loop obj mapping ∅.

End WithNatives.

(** *** Enumeration of the records to index *)

(** The elements of a [range]: [n] values from [start], [step] apart. *)
Fixpoint range_from (n : nat) (start step : Z) : list Z :=
  match n with
  | O => []
  | S n' => start :: range_from n' (start + step) step
  end.

(** [len(range(start, stop, step))], as CPython computes it. *)
Definition range_len (start stop step : Z) : nat :=
  if 0 <? step then
    if start <? stop then Z.to_nat ((stop - start - 1) / step + 1) else O
  else
    if stop <? start then Z.to_nat ((start - stop - 1) / (- step) + 1) else O.

(** [range(start, stop, step)]; a zero step is a [ValueError]. *)
Definition py_range (start stop step : Z) : result (list Z) :=
  if step =? 0 then Raise ValueError
  else Ok (range_from (range_len start stop step) start step).

(** [rows[start:stop]] for [0 <= start <= stop], the only slices
    [get_objects] takes. *)
Definition slice {A : Type} (rows : list A) (start stop : Z) : list A :=
  take (Z.to_nat (stop - start)) (drop (Z.to_nat start) rows).

(** [getattr(settings, 'SEEKER_BATCH_SIZE', 1000)] *)
Definition batch_size_setting (seeker_batch_size : option Z) : Z :=
  default 1000 seeker_batch_size.

(** The [(start, end)] pairs of the batch loop of [get_objects]:
    [for start in range(0, total, batch_size): end = min(start + batch_size, total)]. *)
Definition batch_windows (total batch_size : Z) : result (list (Z * Z)) :=
  do starts <- py_range 0 total batch_size;
  Ok (map (fun start => (start, Z.min (start + batch_size) total)) starts).

(** What a queryset yields: ordered by [pk] for the batch mode, in the
    order of the server-side cursor otherwise. *)
Record queryset (A : Type) : Type := {
  ordered_by_pk : list A;
  cursor_rows : list A
}.

Arguments ordered_by_pk {A} _.
Arguments cursor_rows {A} _.

(** [Indexable.get_objects]: the records it yields, in order. *)
Definition get_objects {A : Type} (seeker_batch_size : option Z)
    (should_index : A → bool) (qs : queryset A) (cursor : bool)
  : result (list A) :=
  if cursor then
    Ok (filter (fun obj => should_index obj = true) (cursor_rows qs))
  else
    let rows := ordered_by_pk qs in
    let total := Z.of_nat (length rows) in
    let batch_size := batch_size_setting seeker_batch_size in
    do windows <- batch_windows total batch_size;
    Ok (concat
          (map (fun w : Z * Z =>
                  filter (fun obj => should_index obj = true)
                         (slice rows w.1 w.2))
               windows)).

(** *** Deriving a document schema from a model *)

(** The class of a model field: the Django classes the code names, and any
    other class with its base. *)
Inductive field_class : Type :=
  | Field
  | DateField
  | DateTimeField
  | IntegerField
  | AutoField
  | OtherField (name : string) (base : field_class).

#[global] Instance field_class_eq_dec : EqDecision field_class.
Proof. solve_decision. Defined.

(** [issubclass(c, models.AutoField)] *)
Fixpoint is_auto_field (c : field_class) : bool :=
  match c with
  | AutoField => true
  | OtherField _ base => is_auto_field base
  | _ => false
  end.

(** A field of [model_class._meta]: [f.name] and [f.__class__]. *)
Record field : Type := {
  field_name : string;
  field_cls : field_class
}.

(** The field types of [elasticsearch_dsl] that the code builds. *)
Inductive dsl_field : Type :=
  | Date
  | Long
  | String_ (analyzer : option string) (index : option string)
            (fields : list (string * dsl_field)).

(** The [defaults] dictionary of [document_field]. *)
Definition defaults : list (field_class * dsl_field) :=
  [ (DateField, Date); (DateTimeField, Date); (IntegerField, Long) ].

(** [d.get(key, fallback)] on a dictionary keyed by classes. *)
Fixpoint dict_get {V : Type} (d : list (field_class * V))
    (key : field_class) (fallback : V) : V :=
  match d with
  | [] => fallback
  | (k, v) :: d' => if decide (k = key) then v else dict_get d' key fallback
  end.

Definition document_field (f : field) : dsl_field :=
  let s := String_ (Some "snowball") None
             [ ("raw", String_ None (Some "not_analyzed") []) ] in
  dict_get defaults (field_cls f) s.

(** [model_class.__name__], [_meta.fields] and [_meta.many_to_many]. *)
Record model_class : Type := {
  model_name : string;
  meta_fields : list field;
  meta_many_to_many : list field
}.

(** The [Meta] class that [document_from_model] builds. *)
Record meta : Type := {
  meta_index : string;
  meta_using : string;
  meta_doc_type : string;
  (** [None] for a fresh [dsl.Mapping(doc_type)], else the one passed. *)
  meta_mapping : option string;
  (** whether [document_class.Meta] is among its parents *)
  meta_inherits : bool
}.

(** A value of the class dictionary [attrs]. *)
Inductive class_attr : Type :=
  | AMeta (m : meta)
  | AModel (model : model_class)
  | AField (fld : dsl_field).

(** The class [type(name, bases, attrs)] returns. *)
Record document_class : Type := {
  class_name : string;
  class_bases : list string;
  class_attrs : gmap string class_attr
}.

Definition lower_char (c : ascii) : ascii :=
  let n := nat_of_ascii c in
  if ((65 <=? n) && (n <=? 90))%nat then ascii_of_nat (n + 32) else c.

(** [s.lower()] on ASCII text. *)
Fixpoint lower (s : string) : string :=
  match s with
  | EmptyString => EmptyString
  | String c s' => String (lower_char c) (lower s')
  end.

Definition upper_char (c : ascii) : ascii :=
  let n := nat_of_ascii c in
  if ((97 <=? n) && (n <=? 122))%nat then ascii_of_nat (n - 32) else c.

(** [s.capitalize()] on ASCII text: the first character in upper case, the
    others in lower case. *)
Definition capitalize (s : string) : string :=
  match s with
  | EmptyString => EmptyString
  | String c s' => String (upper_char c) (lower s')
  end.

(** Whether [s] is ASCII text: the text on which [lower] and [capitalize]
    above are Python's [str.lower] and [str.capitalize]. *)
Fixpoint is_ascii (s : string) : bool :=
  match s with
  | EmptyString => true
  | String c s' => (nat_of_ascii c <? 128)%nat && is_ascii s'
  end.

(** [s.endswith(suffix)] *)
Fixpoint endswith (s suffix : string) : bool :=
  String.eqb s suffix ||
  match s with
  | String _ s' => endswith s' suffix
  | EmptyString => false
  end.

(** [s.replace(old, new)] for single characters. *)
Fixpoint replace_char (old new : ascii) (s : string) : string :=
  match s with
  | EmptyString => EmptyString
  | String c s' =>
      String (if Ascii.eqb c old then new else c) (replace_char old new s')
  end.

(** Whether the character [c] occurs in [s]. *)
Fixpoint has_char (c : ascii) (s : string) : bool :=
  match s with
  | EmptyString => false
  | String c' s' => Ascii.eqb c' c || has_char c s'
  end.

(** The first two lines of [label_for_field]: a trailing [.raw] is cut
    ([field_name[:-4]]). *)
Definition strip_raw (field_name : string) : string :=
  if endswith field_name ".raw"
  then String.substring 0 (String.length field_name - 4) field_name
  else field_name.

(** [Indexable.label_for_field]. [verbose_name name] is
    [cls._model._meta.get_field(name).verbose_name], [None] when reading it
    raises (no model, no such field): the [except] branch. *)
Definition label_for_field (verbose_name : string → option string)
    (field_name : string) : string :=
  let field_name := strip_raw field_name in
  match verbose_name field_name with
  | Some v => capitalize v
  | None => capitalize (replace_char "_" " " field_name)
  end.

(** The loop [for f in fields + many_to_many] filling [attrs]. *)
Fixpoint add_fields (field_factory : field → dsl_field) (fs : list field)
    (attrs : gmap string class_attr) : gmap string class_attr :=
  match fs with
  | [] => attrs
  | f :: fs' =>
      if is_auto_field (field_cls f) then add_fields field_factory fs' attrs
      else add_fields field_factory fs'
             (<[field_name f := AField (field_factory f)]> attrs)
  end.

(** The dictionary [attrs] before the loop: [{'Meta': ..., '_model': ...}]. *)
Definition initial_attrs (model : model_class) (m : meta)
  : gmap string class_attr :=
  <["_model" := AModel model]> (<["Meta" := AMeta m]> ∅).

(** [document_from_model]. [seeker_index] is the [SEEKER_INDEX] setting,
    [base_name] and [base_has_meta] describe [document_class]; the
    arguments [fields] and [exclude] of the source are never read. *)
Definition document_from_model (seeker_index : option string)
    (model : model_class) (base_name : string) (base_has_meta : bool)
    (index : option string) (using_ : string) (doc_type : option string)
    (mapping : option string) (field_factory : option (field → dsl_field))
  : document_class :=
  let index := default (default "seeker" seeker_index) index in
  let doc_type := default (lower (model_name model)) doc_type in
  let attrs : gmap string class_attr :=
    initial_attrs model {| meta_index := index;
                           meta_using := using_;
                           meta_doc_type := doc_type;
                           meta_mapping := mapping;
                           meta_inherits := base_has_meta |} in
  let field_factory := default document_field field_factory in
  {| class_name := model_name model +:+ "Doc";
     class_bases := [base_name; "Indexable"];
     class_attrs :=
       add_fields field_factory
         (meta_fields model ++ meta_many_to_many model) attrs |}.

(** The schema entries expected of a list of model fields: one per field
    that is not an [AutoField], under the name of the field. *)
Definition derived_fields (field_factory : field → dsl_field)
    (fs : list field) : list (string * class_attr) :=
  map (fun f => (field_name f, AField (field_factory f)))
      (List.filter (fun f => negb (is_auto_field (field_cls f))) fs).

(** Whether an entry of a class dictionary is a schema field. *)
Definition is_schema_field (a : option class_attr) : bool :=
  match a with
  | Some (AField _) => true
  | _ => false
  end.

End Mapping.

(** ** seeker/registry.py *)

Module Registry.

(** A document class as [register] reads it. Classes are compared by
    identity: [cid] stands for the class object itself. [ModelIndex] is
    imported from [seeker.mapping]; [is_model_index] is what [issubclass]
    answers for it. *)
Record doc_class : Type := {
  cid : nat;
  is_indexable : bool;
  is_model_index : bool;
  (** [doc_class.queryset().model], [None] when reading it raises *)
  queryset_model : option nat;
  (** [doc_class._doc_type.name], [None] when reading it raises *)
  doc_type_name : option string
}.

(** The [app] argument when it is truthy. *)
Record app_config : Type := {
  is_app_config : bool;
  app_name : string;
  (** [app.label], [None] when the object has no such attribute *)
  app_label : option string
}.

(** The module-level state. [current_app] is a [threading.local()]: its
    [label], when some code has set one. *)
Record registry : Type := {
  documents : list doc_class;
  model_documents : gmap nat (list doc_class);
  model_doc_types : gmap string nat;
  app_documents : gmap string (list doc_class);
  current_app : option string
}.

Definition empty_registry : registry :=
  {| documents := []; model_documents := ∅; model_doc_types := ∅;
     app_documents := ∅; current_app := None |}.

(** [doc_class in documents]: classes are equal when they are the same
    object. *)
Definition registered (d : doc_class) (docs : list doc_class) : bool :=
  existsb (fun x => Nat.eqb (cid x) (cid d)) docs.

(** [table.setdefault(key, []).append(d)] *)
Definition setdefault_append `{Countable K} (key : K) (d : doc_class)
    (table : gmap K (list doc_class)) : gmap K (list doc_class) :=
  <[key := default [] (table !! key) ++ [d]]> table.

(** The [try: ... except: pass] block at the end of [register]. *)
Definition add_app_document (app : option app_config) (d : doc_class)
    (st : registry) : registry :=
  let label :=
    match app with
    | Some a => app_label a
    | None => current_app st
    end in
  match label with
  | Some l =>
      {| documents := documents st;
         model_documents := model_documents st;
         model_doc_types := model_doc_types st;
         app_documents := setdefault_append l d (app_documents st);
         current_app := current_app st |}
  | None => st
  end.

(** The tables agree with [documents]: every class listed under a model or
    under an application is in [documents], a class listed under a model
    is a class of that model, and a document type name leads to the model
    of a registered class of that name. *)
Definition consistent (st : registry) : Prop :=
  (∀ m l d, model_documents st !! m = Some l → d ∈ l →
            d ∈ documents st ∧ queryset_model d = Some m) ∧
  (∀ label l d, app_documents st !! label = Some l → d ∈ l →
                d ∈ documents st) ∧
  (∀ n m, model_doc_types st !! n = Some m →
          ∃ d, d ∈ documents st ∧ doc_type_name d = Some n ∧
               queryset_model d = Some m).

Section WithApps.

(** [apps.is_installed(name)] *)
Variable is_installed : string → bool.

(** Whether both assertions of [register] hold. *)
Definition preconditions (d : doc_class) (app : option app_config) : bool :=
  is_indexable d &&
  match app with
  | Some a => is_app_config a && is_installed (app_name a)
  | None => true
  end.

(** [register(doc_class, app)]: what it returns or raises, and the state it
    leaves. [app] is [None] for [None] and for any falsy argument. *)
Definition register (st : registry) (d : doc_class) (app : option app_config)
  : result unit * registry :=
  if negb (is_indexable d) then (Raise AssertionError, st)
  else if match app with
          | Some a => negb (is_app_config a && is_installed (app_name a))
          | None => false
          end
  then (Raise AssertionError, st)
  else if registered d (documents st) then (Ok tt, st)
  else
    let st1 :=
      {| documents := documents st ++ [d];
         model_documents := model_documents st;
         model_doc_types := model_doc_types st;
         app_documents := app_documents st;
         current_app := current_app st |} in
    if is_model_index d then
      match queryset_model d with
      | None => (Raise AttributeError, st1)
      | Some model =>
          let st2 :=
            {| documents := documents st1;
               model_documents :=
                 setdefault_append model d (model_documents st1);
               model_doc_types := model_doc_types st1;
               app_documents := app_documents st1;
               current_app := current_app st1 |} in
          match doc_type_name d with
          | None => (Raise AttributeError, st2)
          | Some name =>
              let st3 :=
                {| documents := documents st2;
                   model_documents := model_documents st2;
                   model_doc_types := <[name := model]> (model_doc_types st2);
                   app_documents := app_documents st2;
                   current_app := current_app st2 |} in
              (Ok tt, add_app_document app d st3)
          end
      end
    else (Ok tt, add_app_document app d st1).

(** A sequence of calls of [register], each with its class and its [app]
    argument, whatever each returns or raises. *)
Fixpoint register_all (st : registry)
    (calls : list (doc_class * option app_config)) : registry :=
  match calls with
  | [] => st
  | (d, app) :: calls' => register_all (register st d app).2 calls'
  end.

End WithApps.

End Registry.

(** ** The scenario of the specification *)

Module Scenario.

Import Mapping.

(** A tag record with its [name]. *)
Definition tag (name : string) : value :=
  VModel ("Tag " +:+ name) [ ("name", VStr name) ].

(** The article with id 5, title "Hello" and the tags "a" and "b". *)
Definition article : value :=
  VModel "Article object"
    [ ("pk", VInt 5); ("id", VInt 5); ("title", VStr "Hello");
      ("tags", VManager [ tag "a"; tag "b" ]) ].

(** The schema [{title, tags__name}]. *)
Definition article_mapping : list string := [ "title"; "tags__name" ]%string.

(** An article whose [status] field has choices, hence a display method. *)
Definition article_with_status : value :=
  VModel "Article object"
    [ ("pk", VInt 5); ("status", VStr "p");
      ("get_status_display", VMethod (VStr "Published"));
      ("author", VModel "Ann" [ ("role", VStr "e");
                                ("get_role_display", VMethod (VStr "Editor")) ]);
      ("tags", VManager [ tag "a"; tag "b" ]) ].

(** An article whose [author] relation is null. *)
Definition article_without_author : value :=
  VModel "Article object"
    [ ("pk", VInt 6); ("title", VStr "Draft"); ("author", VNone) ].

(** A blog with its articles, each with its tags. *)
Definition blog : value :=
  VModel "Blog"
    [ ("articles", VManager [ article; article_without_author ]) ].

(** Natives for closed examples: no native attribute is read in them. *)
Definition no_native_attr : value → string → option value := fun _ _ => None.
Definition no_native_str : value → string := fun _ => EmptyString.

(** The model [Article]: an auto primary key, a title and its tags. *)
Definition article_model : model_class :=
  {| model_name := "Article";
     meta_fields :=
       [ {| field_name := "id"; field_cls := AutoField |};
         {| field_name := "title";
            field_cls := OtherField "CharField" Field |};
         {| field_name := "published"; field_cls := DateTimeField |} ];
     meta_many_to_many :=
       [ {| field_name := "tags";
            field_cls := OtherField "ManyToManyField" Field |} ] |}.

(** A document class for [Article], and a second class object with the
    same content. *)
Definition article_doc : Registry.doc_class :=
  {| Registry.cid := 1; Registry.is_indexable := true;
     Registry.is_model_index := true; Registry.queryset_model := Some 7%nat;
     Registry.doc_type_name := Some "article" |}.

Definition article_doc_copy : Registry.doc_class :=
  {| Registry.cid := 2; Registry.is_indexable := true;
     Registry.is_model_index := true; Registry.queryset_model := Some 7%nat;
     Registry.doc_type_name := Some "article" |}.

(** Another class whose document type is also named [article], for
    another model. *)
Definition legacy_doc : Registry.doc_class :=
  {| Registry.cid := 5; Registry.is_indexable := true;
     Registry.is_model_index := true; Registry.queryset_model := Some 9%nat;
     Registry.doc_type_name := Some "article" |}.

(** A class that is not an [Indexable]. *)
Definition not_a_document : Registry.doc_class :=
  {| Registry.cid := 3; Registry.is_indexable := false;
     Registry.is_model_index := false; Registry.queryset_model := None;
     Registry.doc_type_name := None |}.

(** A model index whose [queryset()] cannot be read. *)
Definition broken_doc : Registry.doc_class :=
  {| Registry.cid := 4; Registry.is_indexable := true;
     Registry.is_model_index := true; Registry.queryset_model := None;
     Registry.doc_type_name := Some "broken" |}.

Definition blog_app : Registry.app_config :=
  {| Registry.is_app_config := true; Registry.app_name := "blog";
     Registry.app_label := Some "blog" |}.

(** Only [blog] is installed. *)
Definition installed_apps (name : string) : bool := String.eqb name "blog".

(** The registry after [register(article_doc, blog_app)]. *)
Definition registry_with_article : Registry.registry :=
  (Registry.register installed_apps Registry.empty_registry
     article_doc (Some blog_app)).2.

End Scenario.

(** * Properties *)

(** ** Strings: splitting and joining *)

Module PyStrFacts.

Lemma is_underscore_true c : is_underscore c = true → c = "_"%char.
Proof. unfold is_underscore. apply Ascii.eqb_eq. Qed.

Lemma string_length_app (s t : string) :
  String.length (s +:+ t) = (String.length s + String.length t)%nat.
Proof. induction s as [|c s IH]; simpl; [done | by rewrite IH]. Qed.

Lemma split_dunder_nonempty s : split_dunder s ≠ [].
Proof.
  destruct s as [|c s1]; simpl; [done |].
  assert (Hkeep : match split_dunder s1 with
                  | p :: ps => String c p :: ps
                  | [] => [String c EmptyString]
                  end ≠ []) by (by destruct (split_dunder s1)).
  destruct (is_underscore c); [| done].
  destruct s1 as [|c2 s2]; [done |].
  by destruct (is_underscore c2).
Qed.

Lemma join_cons_char sep c p ps :
  join sep (String c p :: ps) = String c (join sep (p :: ps)).
Proof. by destruct ps. Qed.

(** The separator the code splits on is the one it joins with. *)
Lemma join_split_bounded n :
  ∀ s, (String.length s ≤ n)%nat → join dunder (split_dunder s) = s.
Proof.
  induction n as [|n IH]; intros s Hlen.
  - destruct s; [done | simpl in Hlen; lia].
  - destruct s as [|c s1]; [done |].
    simpl in Hlen.
    assert (Hkeep : join dunder
               match split_dunder s1 with
               | p :: ps => String c p :: ps
               | [] => [String c EmptyString]
               end = String c s1).
    { pose proof (split_dunder_nonempty s1) as Hne.
      pose proof (IH s1 ltac:(lia)) as Hs1.
      destruct (split_dunder s1) as [|p ps]; [done |].
      by rewrite join_cons_char, Hs1. }
    simpl. destruct (is_underscore c) eqn:Hc; [| done].
    destruct s1 as [|c2 s2]; [done |].
    destruct (is_underscore c2) eqn:Hc2; [| done].
    apply is_underscore_true in Hc, Hc2. subst c c2.
    simpl in Hlen.
    pose proof (split_dunder_nonempty s2) as Hne.
    pose proof (IH s2 ltac:(lia)) as Hs2.
    destruct (split_dunder s2) as [|p ps] eqn:Hsp; [done |].
    change (join dunder (EmptyString :: p :: ps))
      with (dunder +:+ join dunder (p :: ps)).
    by rewrite Hs2.
Qed.

Lemma join_split s : join dunder (split_dunder s) = s.
Proof. by apply (join_split_bounded (String.length s)). Qed.

Lemma join_length_cons x l :
  String.length (join dunder (x :: l)) =
  (String.length x +
   match l with
   | [] => 0
   | _ :: _ => 2 + String.length (join dunder l)
   end)%nat.
Proof.
  destruct l as [|y l]; simpl join.
  - lia.
  - rewrite !string_length_app. simpl. lia.
Qed.

Lemma join_length_app pre l :
  (String.length (join dunder l) ≤ String.length (join dunder (pre ++ l)))%nat.
Proof.
  induction pre as [|p pre IH]; [done |].
  rewrite <- app_comm_cons, join_length_cons.
  destruct (pre ++ l) as [|y l'] eqn:Hpl.
  - apply app_eq_nil in Hpl as [_ ->]. simpl. lia.
  - lia.
Qed.

(** The path handed to a recursive call is strictly shorter. *)
Lemma new_path_shorter path pre part rest :
  path_parts path = pre ++ part :: rest →
  (String.length (join dunder rest) < String.length path)%nat.
Proof.
  intros Hparts.
  destruct path as [|c path']; [by destruct pre |].
  unfold path_parts in Hparts.
  rewrite <- (join_split (String c path')), Hparts.
  pose proof (join_length_app pre (part :: rest)) as Hle.
  rewrite join_length_cons in Hle.
  destruct rest as [|y rest'].
  - rewrite <- Hparts, join_split. simpl. lia.
  - lia.
Qed.

Lemma segment_cons c s :
  segment (String c s) = true →
  segment s = true ∧
  (is_underscore c = true →
   match s +:+ "_" with
   | String c2 _ => is_underscore c2 = false
   | EmptyString => True
   end).
Proof.
  unfold segment. simpl. intros H.
  apply negb_true_iff, orb_false_iff in H as [H1 H2].
  split; [by rewrite H2 |].
  intros Hc. rewrite Hc in H1. simpl in H1.
  by destruct (s +:+ "_").
Qed.

(** A segment followed by the separator is the first part of the split. *)
Lemma split_dunder_segment s x :
  segment s = true →
  split_dunder (s +:+ dunder +:+ x) = s :: split_dunder x.
Proof.
  induction s as [|c s1 IH]; intros Hseg.
  - reflexivity.
  - apply segment_cons in Hseg as [Hs1 Hc].
    specialize (IH Hs1).
    change (String c s1 +:+ dunder +:+ x)
      with (String c (s1 +:+ dunder +:+ x)).
    cbn [split_dunder]. rewrite IH.
    destruct (is_underscore c) eqn:Ec; [| done].
    specialize (Hc eq_refl).
    destruct s1 as [|c2 s2].
    + discriminate Hc.
    + simpl in Hc |- *. by rewrite Hc.
Qed.

Lemma path_parts_segment s x :
  segment s = true →
  path_parts (s +:+ dunder +:+ x) = s :: split_dunder x.
Proof.
  intros Hseg. rewrite <- (split_dunder_segment s x Hseg).
  unfold path_parts. destruct s; reflexivity.
Qed.

Lemma split_dunder_plain b : has_dunder b = false → split_dunder b = [b].
Proof.
  induction b as [|c b1 IH]; [done |].
  cbn [has_dunder]. intros H. apply orb_false_iff in H as [Hc Hb1].
  cbn [split_dunder]. rewrite (IH Hb1).
  destruct (is_underscore c); [| done].
  destruct b1 as [|c2 b2]; [done |].
  simpl in Hc. by rewrite Hc.
Qed.

(** *** The shape of a split path *)

Lemma split_join_canonical parts :
  canonical parts = true → split_dunder (join dunder parts) = parts.
Proof.
  induction parts as [|p rest IH]; [done |].
  cbn [canonical join]. destruct rest as [|q rest'].
  - intros H. apply negb_true_iff in H. by apply split_dunder_plain.
  - intros H. apply andb_true_iff in H as [Hp Hrest].
    rewrite (split_dunder_segment _ _ Hp). by rewrite (IH Hrest).
Qed.

Lemma split_dunder_head c s :
  is_underscore c = false →
  ∃ p ps, split_dunder (String c s) = String c p :: ps.
Proof.
  intros Hc. cbn [split_dunder]. rewrite Hc.
  pose proof (split_dunder_nonempty s) as Hne.
  destruct (split_dunder s) as [|p ps]; [done |]. by exists p, ps.
Qed.

(** Putting a character in front of the first part keeps the shape, unless
    it makes a separator with the character that follows. *)
Lemma canonical_keep c p ps :
  canonical (p :: ps) = true →
  (is_underscore c = true →
   match p with
   | String c2 _ => is_underscore c2 = false
   | EmptyString => ps = []
   end) →
  canonical (String c p :: ps) = true.
Proof.
  intros Hcan Hguard. cbn [canonical] in *.
  destruct ps as [|q ps'].
  - apply negb_true_iff in Hcan. apply negb_true_iff.
    cbn [has_dunder]. rewrite Hcan, orb_false_r.
    destruct (is_underscore c); [| done].
    specialize (Hguard eq_refl). destruct p; [done |]. by rewrite Hguard.
  - apply andb_true_iff in Hcan as [Hp Hrest].
    rewrite Hrest, andb_true_r.
    unfold segment in *. apply negb_true_iff in Hp. apply negb_true_iff.
    change (String c p +:+ "_") with (String c (p +:+ "_")).
    cbn [has_dunder]. rewrite Hp, orb_false_r.
    destruct (is_underscore c); [| done].
    specialize (Hguard eq_refl). destruct p; [done |].
    simpl. by rewrite Hguard.
Qed.

Lemma split_dunder_canonical_bounded n :
  ∀ s, (String.length s ≤ n)%nat → canonical (split_dunder s) = true.
Proof.
  induction n as [|n IH]; intros s Hlen.
  - destruct s; [done | simpl in Hlen; lia].
  - destruct s as [|c s1]; [done |].
    simpl in Hlen.
    assert (Hkeep :
      (is_underscore c = true →
       match s1 with
       | String c2 _ => is_underscore c2 = false
       | EmptyString => True
       end) →
      canonical match split_dunder s1 with
                | p :: ps => String c p :: ps
                | [] => [String c EmptyString]
                end = true).
    { intros Hguard.
      pose proof (IH s1 ltac:(lia)) as Hs1.
      pose proof (split_dunder_nonempty s1) as Hne.
      destruct (split_dunder s1) as [|p ps] eqn:Hsplit; [done |].
      apply canonical_keep; [done |].
      intros Hc. specialize (Hguard Hc).
      destruct s1 as [|c2 s2].
      - by injection Hsplit as <- <-.
      - destruct (split_dunder_head c2 s2 Hguard) as (p' & ps' & Hhead).
        rewrite Hhead in Hsplit. injection Hsplit as <- <-. done. }
    cbn [split_dunder].
    destruct (is_underscore c) eqn:Hc; [| by apply Hkeep].
    destruct s1 as [|c2 s2]; [by apply Hkeep |].
    destruct (is_underscore c2) eqn:Hc2; [| by apply Hkeep].
    simpl in Hlen.
    pose proof (IH s2 ltac:(lia)) as Hs2.
    pose proof (split_dunder_nonempty s2) as Hne.
    cbn [canonical].
    destruct (split_dunder s2) as [|p ps]; [done |].
    by rewrite Hs2.
Qed.

Lemma split_dunder_canonical s : canonical (split_dunder s) = true.
Proof. by apply (split_dunder_canonical_bounded (String.length s)). Qed.

Lemma canonical_tail x l :
  canonical (x :: l) = true → l ≠ [] → canonical l = true.
Proof.
  cbn [canonical]. destruct l as [|y l']; [done |].
  intros H _. by apply andb_true_iff in H as [_ H].
Qed.


Lemma path_parts_canonical path :
  path_parts path = [] ∨ canonical (path_parts path) = true.
Proof.
  destruct path as [|c path']; [by left |].
  right. apply split_dunder_canonical.
Qed.

(** Joining the rest of a split path and splitting it again gives the rest
    back, except for a rest reduced to one empty segment. *)
Lemma path_parts_join rest :
  rest = [] ∨ canonical rest = true →
  path_parts (join dunder rest) =
  match rest with
  | [ EmptyString ] => []
  | _ => rest
  end.
Proof.
  intros [->|Hcan]; [done |].
  pose proof (split_join_canonical rest Hcan) as Hsplit.
  destruct (join dunder rest) as [|c s] eqn:Hjoin.
  - simpl in Hsplit. by rewrite <- Hsplit.
  - unfold path_parts. rewrite Hsplit.
    destruct rest as [|[|c' p] [|q rest']]; try done.
Qed.

End PyStrFacts.

(** ** seeker/mapping.py: resolving paths *)

Module MappingFacts.

Import PyStrFacts Mapping.

Lemma map_results_ext {A B : Type} (f g : A → result B) l :
  (∀ a, a ∈ l → f a = g a) → map_results f l = map_results g l.
Proof.
  induction l as [|a l IH]; intros Hfg; [done |].
  simpl. rewrite (Hfg a) by apply list_elem_of_here.
  rewrite IH; [done |].
  intros b Hb. apply Hfg. by apply list_elem_of_further.
Qed.

Lemma map_results_ok {A B : Type} (f : A → result B) l vs :
  map_results f l = Ok vs → Forall2 (fun a v => f a = Ok v) l vs.
Proof.
  revert vs. induction l as [|a l IH]; simpl; intros vs H.
  - injection H as <-. constructor.
  - destruct (f a) as [b|e] eqn:Hb; [| done]. simpl in H.
    destruct (map_results f l) as [bs|e] eqn:Hbs; [| done].
    simpl in H. injection H as <-. constructor; [done | by apply IH].
Qed.


Lemma map_results_raise {A B : Type} (f : A → result B) l e :
  map_results f l = Raise e → ∃ a, a ∈ l ∧ f a = Raise e.
Proof.
  induction l as [|a l IH]; simpl; intros H; [done |].
  destruct (f a) as [b|e'] eqn:Hb; simpl in H.
  - destruct (map_results f l) as [bs|e'] eqn:Hbs; [done |].
    simpl in H. injection H as ->.
    destruct (IH eq_refl) as (a' & Hin & Ha').
    exists a'. split; [by apply list_elem_of_further | done].
  - injection H as ->. exists a. split; [apply list_elem_of_here | done].
Qed.

Section WithNatives.

Variable native_attr : value → string → option value.
Variable native_str : value → string.

Local Abbreviation get_attr := (get_attr native_attr).
Local Abbreviation has_attr := (has_attr native_attr).
Local Abbreviation text_type := (text_type native_str).
Local Abbreviation follow_loop := (follow_loop native_attr native_str).
Local Abbreviation follow_fuel := (follow_fuel native_attr native_str).
Local Abbreviation follow := (follow native_attr native_str).
Local Abbreviation walk := (walk native_attr).

(** *** The loop, one segment at a time *)

Lemma follow_loop_nil self obj :
  follow_loop self obj [] =
  Ok (if is_model obj then VStr (text_type obj) else obj).
Proof. simpl. by destruct (is_model obj). Qed.


Lemma follow_loop_manager self obj part rest related :
  has_attr obj (display_name part) = false →
  get_attr obj part = Some (VManager related) →
  follow_loop self obj (part :: rest) =
  (do vs <- map_results (fun o => self o (join dunder rest)) related;
   Ok (VList vs)).
Proof. intros Hd Ha. simpl. by rewrite Hd, Ha. Qed.

Lemma follow_loop_step self obj part rest :
  has_attr obj (display_name part) = false →
  manager_all (default VNone (get_attr obj part)) = None →
  follow_loop self obj (part :: rest) =
  follow_loop self (default VNone (get_attr obj part)) rest.
Proof. intros Hd Hm. simpl. by rewrite Hd, Hm. Qed.

Lemma follow_loop_walk self obj pre o parts :
  walk obj pre = Some o →
  follow_loop self obj (pre ++ parts) = follow_loop self o parts.
Proof.
  revert obj. induction pre as [|part pre IH]; intros obj Hw.
  - injection Hw as ->. done.
  - cbn [Mapping.walk] in Hw.
    destruct (has_attr obj (display_name part)) eqn:Hd; [done |].
    destruct (manager_all (default VNone (get_attr obj part))) eqn:Hm;
      [done |].
    rewrite <- app_comm_cons, follow_loop_step by done.
    by apply IH.
Qed.

(** The loop calls [self] only on the joined rest of its own parts. *)
Lemma follow_loop_ext self1 self2 parts :
  (∀ pre part rest o, parts = pre ++ part :: rest →
     self1 o (join dunder rest) = self2 o (join dunder rest)) →
  ∀ obj, follow_loop self1 obj parts = follow_loop self2 obj parts.
Proof.
  induction parts as [|part rest IH]; intros Hself obj; [done |].
  cbn [Mapping.follow_loop].
  destruct (has_attr obj (display_name part)); [done |].
  destruct (manager_all (default VNone (get_attr obj part))) as [related|].
  - cbn zeta. erewrite map_results_ext; [done |].
    intros o _. by apply (Hself [] part rest o).
  - apply IH. intros pre part' rest' o ->.
    by apply (Hself (part :: pre) part' rest' o).
Qed.

(** *** The recursion bound is never reached *)

Lemma follow_fuel_agree n :
  ∀ m obj path,
    (String.length path < n)%nat → (String.length path < m)%nat →
    follow_fuel n obj path = follow_fuel m obj path.
Proof.
  induction n as [|n IH]; intros m obj path Hn Hm; [lia |].
  destruct m as [|m]; [lia |].
  cbn [Mapping.follow_fuel].
  apply follow_loop_ext. intros pre part rest o Hparts.
  pose proof (new_path_shorter _ _ _ _ Hparts).
  apply IH; lia.
Qed.

Lemma follow_fuel_enough n obj path :
  (String.length path < n)%nat → follow_fuel n obj path = follow obj path.
Proof. intros Hn. apply follow_fuel_agree; [done | lia]. Qed.

(** [follow] satisfies the recursive equation of the source. *)
Lemma follow_unfold obj path :
  follow obj path = follow_loop follow obj (path_parts path).
Proof.
  unfold Mapping.follow at 1. cbn [Mapping.follow_fuel].
  apply follow_loop_ext. intros pre part rest o Hparts.
  pose proof (new_path_shorter _ _ _ _ Hparts).
  by apply follow_fuel_enough.
Qed.

Lemma follow_loop_out_of_fuel self parts :
  ∀ obj, follow_loop self obj parts = Raise OutOfFuel →
  ∃ pre part rest o,
    parts = pre ++ part :: rest ∧ self o (join dunder rest) = Raise OutOfFuel.
Proof.
  induction parts as [|part rest IH]; intros obj H.
  - rewrite follow_loop_nil in H. done.
  - cbn [Mapping.follow_loop] in H.
    destruct (has_attr obj (display_name part)).
    { destruct (get_attr obj (display_name part)) as [m|]; [| done].
      by destruct m. }
    destruct (manager_all (default VNone (get_attr obj part))) as [related|].
    + cbn zeta in H.
      destruct (map_results _ related) as [vs|e] eqn:Hmap; [done |].
      simpl in H. injection H as ->.
      apply map_results_raise in Hmap as (o & _ & Ho).
      by exists [], part, rest, o.
    + destruct (IH _ H) as (pre & part' & rest' & o & -> & Ho).
      by exists (part :: pre), part', rest', o.
Qed.

Lemma follow_fuel_never_out n :
  ∀ obj path, (String.length path < n)%nat →
    follow_fuel n obj path ≠ Raise OutOfFuel.
Proof.
  induction n as [|n IH]; intros obj path Hn H; [lia |].
  cbn [Mapping.follow_fuel] in H.
  apply follow_loop_out_of_fuel in H as (pre & part & rest & o & Hparts & Ho).
  pose proof (new_path_shorter _ _ _ _ Hparts).
  apply (IH o (join dunder rest)); [lia | done].
Qed.

(** [follow] terminates within its bound on every input. *)
Lemma follow_terminates obj path : follow obj path ≠ Raise OutOfFuel.
Proof. apply follow_fuel_never_out. lia. Qed.

(** *** The traversal on the list of segments *)

Local Abbreviation follow_parts := (follow_parts native_attr native_str).

Lemma follow_loop_parts parts :
  parts = [] ∨ canonical parts = true →
  ∀ obj, follow_loop follow obj parts = follow_parts obj parts.
Proof.
  induction parts as [|part rest IH]; intros Hcan obj; [done |].
  destruct Hcan as [|Hcan]; [done |].
  assert (Hrest : rest = [] ∨ canonical rest = true).
  { destruct rest as [|q rest']; [by left |].
    right. by apply (canonical_tail part). }
  specialize (IH Hrest).
  cbn [Mapping.follow_loop Mapping.follow_parts].
  destruct (has_attr obj (display_name part)); [done |].
  destruct (manager_all (default VNone (get_attr obj part))) as [related|];
    [| apply IH].
  cbn zeta. erewrite map_results_ext; [done |].
  intros o _. cbn beta.
  rewrite follow_unfold, (path_parts_join rest Hrest).
  destruct rest as [|[|c p] [|q rest']]; first [done | apply IH].
Qed.

(** [follow] is the traversal of the segments of the path: joining the
    rest of the path and splitting it again in the recursive call changes
    nothing but the case of [follow_parts]. *)
Lemma follow_refines obj path :
  follow obj path = follow_parts obj (path_parts path).
Proof.
  rewrite follow_unfold. apply follow_loop_parts, path_parts_canonical.
Qed.

(** *** Paths that cross a to-many relation *)

(** Wherever the traversal meets a manager, the result is a list with one
    entry per related record, each the result of [follow] on the rest. *)
Lemma follow_crossing_relation r path pre a rest o related v :
  path_parts path = pre ++ a :: rest →
  walk r pre = Some o →
  has_attr o (display_name a) = false →
  get_attr o a = Some (VManager related) →
  follow r path = Ok v →
  ∃ vs, v = VList vs ∧ length vs = length related ∧
        Forall2 (fun o' v' => follow o' (join dunder rest) = Ok v') related vs.
Proof.
  intros Hparts Hw Hd Ha Hv.
  rewrite follow_unfold, Hparts, (follow_loop_walk _ _ _ _ _ Hw) in Hv.
  rewrite (follow_loop_manager _ _ _ _ _ Hd Ha) in Hv.
  destruct (map_results _ related) as [vs|e] eqn:Hmap; [| done].
  simpl in Hv. injection Hv as <-.
  apply map_results_ok in Hmap.
  exists vs. split; [done |]. split; [| done].
  symmetry. by eapply Forall2_length.
Qed.



(** *** Display-valued segments *)



(** *** Segments that do not resolve *)

Lemma follow_loop_none self rest : follow_loop self VNone rest = Ok VNone.
Proof. induction rest as [|part rest IH]; [done |]. simpl. exact IH. Qed.







(** *** The empty path *)

(** C7, amended: with the empty path [follow] returns the string form of a
    record, whether or not the record has display methods, and any other
    value as it is. *)
Theorem follow_empty_path :
  (∀ text attrs, follow (VModel text attrs) EmptyString = Ok (VStr text)) ∧
  (∀ v, follow v EmptyString =
        Ok (if is_model v then VStr (text_type v) else v)).
Proof.
  split.
  - intros text attrs. by rewrite follow_unfold.
  - intros v. rewrite follow_unfold. apply follow_loop_nil.
Qed.

End WithNatives.

End MappingFacts.

(** ** seeker/mapping.py: enumerating the records in batches *)

Module BatchFacts.

Import Mapping.

Lemma range_from_elem n : ∀ s step x,
  x ∈ range_from n s step →
  ∃ i, (0 ≤ i < Z.of_nat n) ∧ x = s + i * step.
Proof.
  induction n as [|n IH]; intros s step x Hx; simpl in Hx.
  - by apply elem_of_nil in Hx.
  - apply elem_of_cons in Hx as [->|Hx].
    + exists 0. lia.
    + destruct (IH _ _ _ Hx) as (i & Hi & ->). exists (i + 1). lia.
Qed.

Lemma range_from_last n s step :
  last (range_from (S n) s step) = Some (s + Z.of_nat n * step).
Proof.
  revert s. induction n as [|n IH]; intros s.
  - simpl. f_equal. lia.
  - change (range_from (S (S n)) s step)
      with (s :: range_from (S n) (s + step) step).
    rewrite last_cons, IH. f_equal. lia.
Qed.

Lemma last_map {A B : Type} (f : A → B) l : last (map f l) = f <$> last l.
Proof.
  induction l as [|a l IH]; [done |].
  destruct l as [|b l]; [done |].
  exact IH.
Qed.

(** The number of windows is the least [n] with [T <= n * B]. *)
Lemma range_len_spec T B :
  0 ≤ T → 0 < B →
  T ≤ Z.of_nat (range_len 0 T B) * B ∧
  (range_len 0 T B ≠ O → (Z.of_nat (range_len 0 T B) - 1) * B < T).
Proof.
  intros HT HB. unfold range_len.
  destruct (Z.ltb_spec 0 B) as [_|]; [| lia].
  destruct (Z.ltb_spec 0 T) as [HT'|HT'].
  - replace (T - 0 - 1) with (T - 1) by lia.
    pose proof (Z.div_pos (T - 1) B ltac:(lia) HB) as Hq.
    pose proof (Z.mul_div_le (T - 1) B HB) as Hle.
    pose proof (Z.mul_succ_div_gt (T - 1) B HB) as Hgt.
    rewrite Z2Nat.id by lia. split; [lia |]. intros _. lia.
  - split; [simpl; lia | done].
Qed.

Lemma tile_step (T B s : Z) (n : nat) :
  0 < B →
  T ≤ s + Z.of_nat (S n) * B →
  s + (Z.of_nat (S n) - 1) * B < T →
  (T ≤ s + B → n = O) ∧
  (s + B < T →
   T ≤ (s + B) + Z.of_nat n * B ∧
   (n ≠ O → (s + B) + (Z.of_nat n - 1) * B < T)).
Proof.
  intros HB Hreach Hlast.
  rewrite Nat2Z.inj_succ in Hreach, Hlast.
  replace (Z.succ (Z.of_nat n) * B) with (Z.of_nat n * B + B)
    in Hreach by ring.
  replace ((Z.succ (Z.of_nat n) - 1) * B) with (Z.of_nat n * B)
    in Hlast by ring.
  replace ((Z.of_nat n - 1) * B) with (Z.of_nat n * B - B) by ring.
  split.
  - intros Hend. destruct n as [|n]; [done |].
    rewrite Nat2Z.inj_succ in Hlast.
    replace (Z.succ (Z.of_nat n) * B) with (Z.of_nat n * B + B)
      in Hlast by ring.
    assert (0 ≤ Z.of_nat n * B) by (apply Z.mul_nonneg_nonneg; lia).
    lia.
  - intros Hmore. split; [lia |]. intros _. lia.
Qed.

Lemma last_window_length (T B n : Z) :
  0 < B → 0 ≤ n → T ≤ (n + 1) * B → n * B < T →
  n * B = T - (if T mod B =? 0 then B else T mod B).
Proof.
  intros HB Hn Hreach Hlast.
  pose proof (Z.div_mod T B ltac:(lia)) as Hdm.
  pose proof (Z.mod_pos_bound T B HB) as Hmod.
  destruct (Z.eqb_spec (T mod B) 0) as [Hz|Hnz].
  - assert (T / B = n + 1) by nia. nia.
  - assert (T / B = n) by nia. nia.
Qed.

Section Tiling.

Variables T B : Z.
Hypothesis B_pos : 0 < B.

(** Windows taken from [s] on, [n] of them being just enough to reach
    [T], enumerate the indices from [s] to [T] once each, in order. *)
Lemma windows_tile n : ∀ s,
  s ≤ T →
  T ≤ s + Z.of_nat n * B →
  (n ≠ O → s + (Z.of_nat n - 1) * B < T) →
  concat (map (fun start => seqZ start (Z.min (start + B) T - start))
              (range_from n s B)) = seqZ s (T - s).
Proof.
  induction n as [|n IH]; intros s Hs Hreach Hlast.
  - simpl. rewrite seqZ_nil; [done | lia].
  - specialize (Hlast ltac:(done)).
    destruct (tile_step T B s n B_pos Hreach Hlast) as [Hone Hnext].
    cbn [range_from map concat].
    destruct (Z.le_gt_cases T (s + B)) as [Hend|Hmore].
    + rewrite (Hone Hend).
      simpl. rewrite app_nil_r. f_equal. lia.
    + destruct (Hnext ltac:(lia)) as [Hreach' Hlast'].
      rewrite IH by (done || lia).
      replace (Z.min (s + B) T - s) with B by lia.
      replace (T - s) with (B + (T - (s + B))) by lia.
      symmetry. apply seqZ_app; lia.
Qed.

(** The same on the rows: the slices, one after the other, are the rows. *)
Lemma slices_tile {A : Type} (rows : list A) n : ∀ s,
  T = Z.of_nat (length rows) →
  0 ≤ s → s ≤ T →
  T ≤ s + Z.of_nat n * B →
  (n ≠ O → s + (Z.of_nat n - 1) * B < T) →
  concat (map (fun start => slice rows start (Z.min (start + B) T))
              (range_from n s B)) = drop (Z.to_nat s) rows.
Proof.
  induction n as [|n IH]; intros s HT Hs0 Hs Hreach Hlast.
  - simpl. rewrite drop_ge; [done | lia].
  - specialize (Hlast ltac:(done)).
    destruct (tile_step T B s n B_pos Hreach Hlast) as [Hone Hnext].
    cbn [range_from map concat]. unfold slice at 1.
    destruct (Z.le_gt_cases T (s + B)) as [Hend|Hmore].
    + rewrite (Hone Hend).
      simpl. rewrite app_nil_r. apply take_ge.
      rewrite length_drop. lia.
    + destruct (Hnext ltac:(lia)) as [Hreach' Hlast'].
      rewrite IH by (done || lia).
      replace (Z.to_nat (s + B)) with (Z.to_nat s + Z.to_nat B)%nat by lia.
      rewrite <- drop_drop.
      replace (Z.to_nat (Z.min (s + B) T - s)) with (Z.to_nat B) by lia.
      apply take_drop.
Qed.

End Tiling.

Lemma concat_map_filter {A W : Type} (P : A → Prop)
    `{!∀ x, Decision (P x)} (f : W → list A) ws :
  concat (map (fun w => filter P (f w)) ws) = filter P (concat (map f ws)).
Proof.
  induction ws as [|w ws IH]; [done |].
  simpl. by rewrite filter_app, IH.
Qed.

Lemma map_map_windows {C : Type} (g : Z * Z → C) (B T : Z) starts :
  map g (map (fun start => (start, Z.min (start + B) T)) starts) =
  map (fun start => g (start, Z.min (start + B) T)) starts.
Proof. induction starts as [|s starts IH]; [done |]. simpl. by rewrite IH. Qed.

Lemma batch_windows_eq T B :
  0 < B →
  batch_windows T B =
  Ok (map (fun start => (start, Z.min (start + B) T))
          (range_from (range_len 0 T B) 0 B)).
Proof.
  intros HB. unfold batch_windows, py_range.
  destruct (Z.eqb_spec B 0) as [|_]; [lia | done].
Qed.

(** Batch mode yields every record that [should_index] accepts, once, in
    the order of the primary keys. *)
Lemma get_objects_batch_complete {A : Type} seeker_batch_size
    (should_index : A → bool) (qs : queryset A) :
  0 < batch_size_setting seeker_batch_size →
  get_objects seeker_batch_size should_index qs false =
  Ok (filter (fun obj => should_index obj = true) (ordered_by_pk qs)).
Proof.
  intros HB. unfold get_objects.
  rewrite (batch_windows_eq _ _ HB). cbn [bind].
  rewrite concat_map_filter. f_equal. f_equal.
  set (T := Z.of_nat (length (ordered_by_pk qs))).
  set (B := batch_size_setting seeker_batch_size) in *.
  rewrite (map_map_windows (fun w => slice (ordered_by_pk qs) w.1 w.2)).
  cbn [fst snd].
  destruct (range_len_spec T B ltac:(lia) HB) as [Hreach Hlast].
  rewrite (slices_tile T B HB (ordered_by_pk qs));
    [done | done | lia | lia | lia |].
  intros Hn. specialize (Hlast Hn). lia.
Qed.

(** C1: for a total [T >= 0] and a batch size [B > 0], the windows of the
    batch mode are half-open ranges [[start, min(start + B, T))], none
    empty; enumerated one after the other they give each index of [[0, T)]
    exactly once, in order (no gap, no overlap); the last one ends at [T]
    and has length [T mod B], or [B] when [B] divides [T]; and [T = 2500],
    [B = 1000] gives [[0,1000)], [[1000,2000)], [[2000,2500)]. *)
Theorem batch_windows_cover T B :
  0 ≤ T → 0 < B →
  ∃ ws,
    batch_windows T B = Ok ws ∧
    Forall (fun w : Z * Z => 0 ≤ w.1 ∧ w.1 < w.2 ∧ w.2 = Z.min (w.1 + B) T) ws ∧
    concat (map (fun w : Z * Z => seqZ w.1 (w.2 - w.1)) ws) = seqZ 0 T ∧
    last ws =
      (if T =? 0 then None
       else Some (T - (if T mod B =? 0 then B else T mod B), T)) ∧
    batch_windows 2500 1000 = Ok [ (0, 1000); (1000, 2000); (2000, 2500) ].
Proof.
  intros HT HB.
  destruct (range_len_spec T B HT HB) as [Hreach Hlast].
  eexists. split; [by apply batch_windows_eq |].
  split; [| split; [| split; [| reflexivity]]].
  - apply Forall_forall. intros w Hw.
    apply list_elem_of_In, in_map_iff in Hw as (start & <- & Hstart).
    apply list_elem_of_In, range_from_elem in Hstart as (i & Hi & ->).
    cbn [fst snd]. nia.
  - rewrite (map_map_windows (fun w => seqZ w.1 (w.2 - w.1))). cbn [fst snd].
    rewrite (windows_tile T B HB); [f_equal; lia | lia | lia |].
    intros Hn. specialize (Hlast Hn). lia.
  - rewrite last_map.
    destruct (Z.eqb_spec T 0) as [->|HT0].
    + assert (range_len 0 0 B = O) as ->; [| reflexivity].
      unfold range_len. by destruct (0 <? B).
    + destruct (range_len 0 T B) as [|n] eqn:Hn; [simpl in Hreach; lia |].
      specialize (Hlast ltac:(done)).
      rewrite range_from_last. cbn [fmap option_fmap option_map].
      f_equal.
      replace (Z.min (0 + Z.of_nat n * B + B) T) with T by lia.
      f_equal.
      rewrite Nat2Z.inj_succ in Hreach, Hlast.
      rewrite Z.add_0_l.
      apply last_window_length; lia.
Qed.

End BatchFacts.

(** ** seeker/mapping.py: the document of a record *)

Module DataFacts.

Import Mapping Scenario.

Section WithNatives.

Variable native_attr : value → string → option value.
Variable native_str : value → string.

Local Abbreviation follow := (follow native_attr native_str).
Local Abbreviation get_data_loop := (get_data_loop native_attr native_str).
Local Abbreviation get_data := (get_data native_attr native_str).
Local Abbreviation get_id := (get_id native_attr native_str).

(** The loop adds one entry per name, computed by [follow], and leaves the
    other entries of the dictionary alone. *)
Lemma get_data_loop_spec obj names : ∀ data d,
  get_data_loop obj names data = Ok d →
  ∀ name,
    (name ∈ names → ∃ v, follow obj name = Ok v ∧ d !! name = Some v) ∧
    (name ∉ names → d !! name = data !! name).
Proof.
  induction names as [|n names IH]; intros data d Hd name.
  - injection Hd as <-. split; [| done].
    intros Hin. by apply elem_of_nil in Hin.
  - cbn [Mapping.get_data_loop] in Hd.
    destruct (follow obj n) as [v|e] eqn:Hv; [| done].
    cbn [bind] in Hd.
    destruct (IH _ _ Hd name) as [Hin Hout].
    destruct (decide (name ∈ names)) as [Hnames|Hnames].
    + split; [intros _; by apply Hin |].
      intros Hnot. exfalso. apply Hnot. by apply list_elem_of_further.
    + rewrite (Hout Hnames). split.
      * intros [->|Hin']%elem_of_cons; [| done].
        exists v. by rewrite lookup_insert_eq.
      * intros Hnot. apply lookup_insert_ne.
        intros ->. apply Hnot. apply list_elem_of_here.
Qed.

(** [get_data] returns exactly one entry per name of the mapping, whose
    value is what [follow] computes for that name. *)
Lemma get_data_spec mapping obj d :
  get_data mapping obj = Ok d →
  ∀ name,
    (name ∈ mapping → ∃ v, follow obj name = Ok v ∧ d !! name = Some v) ∧
    (name ∉ mapping → d !! name = None).
Proof.
  intros Hd name.
  destruct (get_data_loop_spec _ _ _ _ Hd name) as [Hin Hout].
  split; [done |]. intros Hnot. by rewrite (Hout Hnot), lookup_empty.
Qed.

End WithNatives.

(** C5: for the article with id 5, title "Hello" and the tags "a" and "b",
    and the schema [{title, tags__name}], [get_data] returns
    [{"title": "Hello", "tags__name": ["a", "b"]}] and [get_id] returns
    ["5"]. *)
Theorem article_document :
  ∀ native_attr native_str,
    Mapping.get_data native_attr native_str article_mapping article =
      Ok ({[ "title"%string := VStr "Hello";
             "tags__name"%string := VList [ VStr "a"; VStr "b" ] ]}) ∧
    Mapping.get_id native_attr native_str article = Ok "5"%string.
Proof. intros native_attr native_str. split; reflexivity. Qed.

End DataFacts.

(** ** seeker/mapping.py: deriving the schema *)

Module SchemaFacts.

Import Mapping.

(** C8: [document_field] is a function of the class of the field alone:
    [DateField] and [DateTimeField] give [Date], [IntegerField] gives
    [Long], and every other class gives the snowball-analyzed string with
    its not-analyzed [raw] subfield. *)
Theorem document_field_table :
  (∀ f, document_field f =
        match field_cls f with
        | DateField | DateTimeField => Date
        | IntegerField => Long
        | _ => String_ (Some "snowball"%string) None
                 [ ("raw"%string,
                    String_ None (Some "not_analyzed"%string) []) ]
        end) ∧
  (∀ name1 name2 cls,
     document_field {| field_name := name1; field_cls := cls |} =
     document_field {| field_name := name2; field_cls := cls |}).
Proof.
  split.
  - intros [name cls]. unfold document_field. cbn [field_cls].
    by destruct cls.
  - done.
Qed.

Lemma add_fields_app factory fs1 fs2 attrs :
  add_fields factory (fs1 ++ fs2) attrs =
  add_fields factory fs2 (add_fields factory fs1 attrs).
Proof.
  revert attrs. induction fs1 as [|f fs1 IH]; intros attrs; [done |].
  simpl. by destruct (is_auto_field (field_cls f)).
Qed.

(** A name that no indexed field bears keeps its entry. *)
Lemma add_fields_other factory fs : ∀ attrs name,
  Forall (fun f => is_auto_field (field_cls f) = true ∨ field_name f ≠ name)
         fs →
  add_fields factory fs attrs !! name = attrs !! name.
Proof.
  induction fs as [|f fs IH]; intros attrs name Hfs; [done |].
  apply Forall_cons in Hfs as [Hf Hfs].
  simpl. destruct (is_auto_field (field_cls f)) eqn:Hauto.
  - by apply IH.
  - rewrite IH by done. apply lookup_insert_ne.
    by destruct Hf as [|Hf].
Qed.

Lemma NoDup_names_other (fs : list field) f :
  NoDup (map field_name (f :: fs)) →
  Forall (fun g => is_auto_field (field_cls g) = true ∨
                   field_name g ≠ field_name f) fs.
Proof.
  intros Hnd. apply NoDup_cons in Hnd as [Hnotin _].
  apply Forall_forall. intros g Hg. right. intros Heq.
  apply Hnotin. rewrite <- Heq.
  apply list_elem_of_In, in_map, list_elem_of_In, Hg.
Qed.

Lemma add_fields_lookup factory fs : ∀ attrs,
  NoDup (map field_name fs) →
  Forall (fun f =>
            add_fields factory fs attrs !! field_name f =
            if is_auto_field (field_cls f) then attrs !! field_name f
            else Some (AField (factory f))) fs.
Proof.
  induction fs as [|f fs IH]; intros attrs Hnd; [constructor |].
  pose proof (NoDup_names_other fs f Hnd) as Hother.
  pose proof Hnd as Hnd0.
  apply NoDup_cons in Hnd as [Hnotin Hnd].
  constructor.
  - simpl. destruct (is_auto_field (field_cls f)) eqn:Hauto.
    + by apply add_fields_other.
    + rewrite add_fields_other by done. apply lookup_insert_eq.
  - simpl. destruct (is_auto_field (field_cls f)) eqn:Hauto; [by apply IH |].
    apply Forall_forall. intros g Hg.
    pose proof (IH (<[field_name f := AField (factory f)]> attrs) Hnd) as Hfs.
    rewrite Forall_forall in Hfs. rewrite (Hfs g Hg).
    destruct (is_auto_field (field_cls g)); [| done].
    apply lookup_insert_ne. intros Heq. apply Hnotin. rewrite Heq.
    apply list_elem_of_In, in_map, list_elem_of_In, Hg.
Qed.

Lemma derived_fields_names factory fs k :
  k ∈ (derived_fields factory fs).*1 → k ∈ map field_name fs.
Proof.
  unfold derived_fields. induction fs as [|f fs IH]; [done |].
  cbn [List.filter map].
  destruct (is_auto_field (field_cls f)); cbn [negb map fmap list_fmap fst].
  - intros Hk. apply list_elem_of_further. by apply IH.
  - intros [->|Hk]%elem_of_cons; [apply list_elem_of_here |].
    apply list_elem_of_further. by apply IH.
Qed.

(** The loop adds exactly the derived entries to the class dictionary. *)
Lemma add_fields_union factory fs : ∀ attrs,
  NoDup (map field_name fs) →
  add_fields factory fs attrs =
  list_to_map (derived_fields factory fs) ∪ attrs.
Proof.
  induction fs as [|f fs IH]; intros attrs Hnd.
  - unfold derived_fields. simpl. by rewrite (left_id_L ∅ (∪)).
  - apply NoDup_cons in Hnd as [Hnotin Hnd].
    unfold derived_fields. cbn [add_fields List.filter].
    destruct (is_auto_field (field_cls f)); cbn [negb].
    + by apply IH.
    + rewrite (IH _ Hnd). cbn [map]. rewrite list_to_map_cons.
      rewrite <- insert_union_l. symmetry. apply insert_union_r.
      apply not_elem_of_list_to_map_1. intros Hk. apply Hnotin.
      by apply (derived_fields_names factory).
Qed.

Lemma initial_attrs_no_field model m name :
  is_schema_field (initial_attrs model m !! name) = false.
Proof.
  unfold initial_attrs.
  destruct (decide ("_model"%string = name)) as [<-|Hm].
  - by rewrite lookup_insert_eq.
  - rewrite lookup_insert_ne by done.
    destruct (decide ("Meta"%string = name)) as [<-|HM].
    + by rewrite lookup_insert_eq.
    + by rewrite lookup_insert_ne, lookup_empty.
Qed.

(** C10: the class that [document_from_model] builds holds, besides [Meta]
    and [_model], exactly one schema attribute per concrete or many-to-many
    field that is not an [AutoField], built by the field factory; a field
    that is an [AutoField], the automatic primary key among them, gets no
    schema attribute, while [get_id] still renders the primary key of the
    record. *)
Theorem document_from_model_fields seeker_index model base_name base_has_meta
    index using_ doc_type mapping field_factory :
  NoDup (map field_name (meta_fields model ++ meta_many_to_many model)) →
  let cls := document_from_model seeker_index model base_name base_has_meta
               index using_ doc_type mapping field_factory in
  let fs := meta_fields model ++ meta_many_to_many model in
  let factory := default document_field field_factory in
  ∃ m,
    let base := initial_attrs model m in
    class_attrs cls = list_to_map (derived_fields factory fs) ∪ base ∧
    (∀ name, is_schema_field (base !! name) = false) ∧
    Forall (fun f =>
              class_attrs cls !! field_name f =
              if is_auto_field (field_cls f) then base !! field_name f
              else Some (AField (factory f))) fs ∧
    Forall (fun f =>
              is_schema_field (class_attrs cls !! field_name f) =
              negb (is_auto_field (field_cls f))) fs ∧
    (∀ native_attr native_str text attrs z,
       get_id native_attr native_str
         (VModel text (("pk"%string, VInt z) :: attrs)) =
       Ok (str_of_int z)).
Proof.
  intros Hnd cls fs factory.
  set (m := {| meta_index :=
                 default (default "seeker"%string seeker_index) index;
               meta_using := using_;
               meta_doc_type := default (lower (model_name model)) doc_type;
               meta_mapping := mapping;
               meta_inherits := base_has_meta |}).
  exists m. cbn zeta.
  split; [by apply add_fields_union |].
  split; [apply initial_attrs_no_field |].
  pose proof (add_fields_lookup factory fs
                (initial_attrs model m) Hnd) as Hlookup.
  split; [exact Hlookup |].
  split; [| done].
  eapply Forall_impl; [exact Hlookup |].
  cbn beta. intros f Hf.
  change (class_attrs cls)
    with (add_fields factory fs (initial_attrs model m)).
  rewrite Hf.
  destruct (is_auto_field (field_cls f)); [apply initial_attrs_no_field | done].
Qed.

End SchemaFacts.

(** ** seeker/registry.py *)

Module RegistryFacts.

Import Registry.

Lemma add_app_document_documents app d st :
  documents (add_app_document app d st) = documents st.
Proof.
  unfold add_app_document.
  by destruct (match app with
               | Some a => app_label a
               | None => current_app st
               end).
Qed.

Lemma registered_snoc d docs : registered d (docs ++ [d]) = true.
Proof.
  unfold registered. rewrite existsb_app. simpl.
  by rewrite Nat.eqb_refl, orb_true_r.
Qed.

Section WithApps.

Variable is_installed : string → bool.

Local Abbreviation register := (register is_installed).
Local Abbreviation preconditions := (preconditions is_installed).

Lemma preconditions_false d app :
  preconditions d app = false ↔
  is_indexable d = false ∨
  ∃ a, app = Some a ∧ (is_app_config a && is_installed (app_name a)) = false.
Proof.
  unfold Registry.preconditions. destruct (is_indexable d); simpl.
  - destruct app as [a|]; split.
    + intros H. right. by exists a.
    + intros [|(a' & [= <-] & H)]; done.
    + done.
    + intros [|(a' & ? & _)]; done.
  - split; [by left | done].
Qed.

(** An [AssertionError] comes from the two assertions only. *)
Lemma register_assertion_error st d app st' :
  register st d app = (Raise AssertionError, st') →
  preconditions d app = false ∧ st' = st.
Proof.
  unfold Registry.register, Registry.preconditions.
  destruct (is_indexable d); simpl; [| by intros [= <-]].
  destruct app as [a|].
  - destruct (is_app_config a && is_installed (app_name a)); simpl;
      [| by intros [= <-]].
    destruct (registered d (documents st)); [done |].
    destruct (is_model_index d); [| done].
    destruct (queryset_model d); [| done].
    by destruct (doc_type_name d).
  - destruct (registered d (documents st)); [done |].
    destruct (is_model_index d); [| done].
    destruct (queryset_model d); [| done].
    by destruct (doc_type_name d).
Qed.

Lemma register_precondition_fails st d app :
  preconditions d app = false →
  register st d app = (Raise AssertionError, st).
Proof.
  intros Hpre. unfold Registry.register, Registry.preconditions in *.
  destruct (is_indexable d); simpl in *; [| done].
  destruct app as [a|]; [| done].
  by rewrite Hpre.
Qed.

Lemma register_when_registered st d app :
  registered d (documents st) = true →
  register st d app =
  (if preconditions d app then Ok tt else Raise AssertionError, st).
Proof.
  intros Hreg. unfold Registry.register, Registry.preconditions.
  destruct (is_indexable d); simpl; [| done].
  destruct app as [a|].
  - destruct (is_app_config a && is_installed (app_name a)); simpl;
      [| done].
    by rewrite Hreg.
  - by rewrite Hreg.
Qed.

(** C9: when one of the two assertions of [register] fails, the call raises
    [AssertionError] and leaves the registry as it was: [documents],
    [model_documents], [model_doc_types] and [app_documents] are the same
    as before the call. *)
Theorem register_failure_atomic st d app :
  preconditions d app = false →
  register st d app = (Raise AssertionError, st) ∧
  documents (register st d app).2 = documents st ∧
  model_documents (register st d app).2 = model_documents st ∧
  model_doc_types (register st d app).2 = model_doc_types st ∧
  app_documents (register st d app).2 = app_documents st.
Proof.
  intros Hpre. by rewrite (register_precondition_fails st d app Hpre).
Qed.

(** C6: registering a class that is already in [documents] leaves the whole
    registry as it is, the length of [documents] included, and the call
    returns without an error whenever its two assertions hold. *)
Theorem register_idempotent st d app :
  registered d (documents st) = true →
  (register st d app).2 = st ∧
  length (documents (register st d app).2) = length (documents st) ∧
  (register st d app).1 =
    (if preconditions d app then Ok tt else Raise AssertionError).
Proof.
  intros Hreg. by rewrite (register_when_registered st d app Hreg).
Qed.

(** After a call that returns, the class is registered. *)
Lemma register_registers st d app :
  (register st d app).1 = Ok tt →
  registered d (documents (register st d app).2) = true.
Proof.
  unfold Registry.register.
  destruct (is_indexable d); simpl; [| done].
  destruct (match app with
            | Some a => negb (is_app_config a && is_installed (app_name a))
            | None => false
            end); [done |].
  destruct (registered d (documents st)) eqn:Hreg; [done |].
  destruct (is_model_index d).
  - destruct (queryset_model d); [| done].
    destruct (doc_type_name d); [| done].
    intros _. cbn [fst snd]. rewrite add_app_document_documents.
    apply registered_snoc.
  - intros _. cbn [fst snd]. rewrite add_app_document_documents.
    apply registered_snoc.
Qed.

(** Calling [register] a second time with the same arguments changes
    nothing. *)
Lemma register_twice st d app st1 :
  register st d app = (Ok tt, st1) →
  register st1 d app = (Ok tt, st1).
Proof.
  intros H1.
  pose proof (register_registers st d app) as Hreg.
  rewrite H1 in Hreg. specialize (Hreg eq_refl). cbn [snd] in Hreg.
  rewrite (register_when_registered st1 d app Hreg).
  destruct (preconditions d app) eqn:Hpre; [done |].
  by rewrite (register_precondition_fails st d app Hpre) in H1.
Qed.

(** A class that is not in [documents] is appended, whatever its content:
    only the identity of the class object is compared. *)
Lemma register_appends st d app :
  preconditions d app = true →
  registered d (documents st) = false →
  documents (register st d app).2 = documents st ++ [d].
Proof.
  intros Hpre Hreg. unfold Registry.register, Registry.preconditions in *.
  destruct (is_indexable d); simpl in *; [| done].
  assert (match app with
          | Some a => negb (is_app_config a && is_installed (app_name a))
          | None => false
          end = false) as ->.
  { destruct app; [by rewrite Hpre | done]. }
  rewrite Hreg.
  destruct (is_model_index d).
  - destruct (queryset_model d); [| done].
    destruct (doc_type_name d); [| done].
    cbn [snd]. by rewrite add_app_document_documents.
  - cbn [snd]. by rewrite add_app_document_documents.
Qed.

End WithApps.

End RegistryFacts.

(** ** The scenario, evaluated *)

Module Examples.

Import Mapping Registry Scenario.

Local Abbreviation follow := (Mapping.follow no_native_attr no_native_str).
Local Abbreviation get_attr := (Mapping.get_attr no_native_attr).
Local Abbreviation has_attr := (Mapping.has_attr no_native_attr).


(** The empty path on a record with a display method: the string form of
    the record, not the display value. *)
Lemma empty_path_ignores_display :
  get_attr article_with_status (display_name "status") =
    Some (VMethod (VStr "Published")) ∧
  follow article_with_status "" = Ok (VStr "Article object") ∧
  follow article_with_status "" ≠ Ok (VStr "Published").
Proof. repeat split; done. Qed.

(** A path that ends with the separator behind a relation: the rest is
    the empty path, and each related record is rendered as text. *)
Example follow_trailing_separator :
  follow article "tags__" = Ok (VList [ VStr "Tag a"; VStr "Tag b" ]) ∧
  follow article "title__" = Ok VNone.
Proof. split; reflexivity. Qed.

(** A display attribute that is not a method makes [follow] raise. *)
Example follow_display_not_callable :
  follow (VModel "Article object"
            [ ("get_status_display"%string, VStr "Published") ]) "status" =
  Raise TypeError.
Proof. reflexivity. Qed.

(** The same class registered twice, and a second class object with the
    same content registered after it. *)
Example register_article_again :
  register installed_apps registry_with_article article_doc (Some blog_app) =
  (Ok tt, registry_with_article).
Proof. reflexivity. Qed.

Example register_article_copy :
  documents
    (register installed_apps registry_with_article article_doc_copy None).2 =
  [ article_doc; article_doc_copy ].
Proof. reflexivity. Qed.

(** A failure after the assertions leaves the class in [documents]. *)
Example register_broken_doc :
  register installed_apps empty_registry broken_doc None =
  (Raise AttributeError,
   {| documents := [ broken_doc ]; model_documents := ∅;
      model_doc_types := ∅; app_documents := ∅; current_app := None |}).
Proof. reflexivity. Qed.

(** *** The theorems at the scenario *)

Lemma batch_windows_cover_witness :
  0 ≤ 2500 ∧ 0 < 1000 ∧
  ∃ ws,
    batch_windows 2500 1000 = Ok ws ∧
    Forall (fun w : Z * Z =>
              0 ≤ w.1 ∧ w.1 < w.2 ∧ w.2 = Z.min (w.1 + 1000) 2500) ws ∧
    concat (map (fun w : Z * Z => seqZ w.1 (w.2 - w.1)) ws) = seqZ 0 2500 ∧
    last ws =
      (if 2500 =? 0 then None
       else Some (2500 - (if 2500 mod 1000 =? 0 then 1000
                          else 2500 mod 1000), 2500)) ∧
    batch_windows 2500 1000 = Ok [ (0, 1000); (1000, 2000); (2000, 2500) ].
Proof.
  split; [lia |]. split; [lia |].
  apply (BatchFacts.batch_windows_cover 2500 1000); lia.
Defined.




Lemma register_idempotent_witness :
  registered article_doc (documents registry_with_article) = true ∧
  (register installed_apps registry_with_article article_doc
     (Some blog_app)).2 = registry_with_article ∧
  length (documents (register installed_apps registry_with_article
                       article_doc (Some blog_app)).2) =
    length (documents registry_with_article) ∧
  (register installed_apps registry_with_article article_doc
     (Some blog_app)).1 =
    (if preconditions installed_apps article_doc (Some blog_app)
     then Ok tt else Raise AssertionError).
Proof.
  split; [reflexivity |].
  apply (RegistryFacts.register_idempotent installed_apps
           registry_with_article article_doc (Some blog_app)).
  reflexivity.
Defined.

Lemma register_failure_atomic_witness :
  preconditions installed_apps not_a_document None = false ∧
  register installed_apps registry_with_article not_a_document None =
    (Raise AssertionError, registry_with_article) ∧
  documents (register installed_apps registry_with_article
               not_a_document None).2 = documents registry_with_article ∧
  model_documents (register installed_apps registry_with_article
                     not_a_document None).2 =
    model_documents registry_with_article ∧
  model_doc_types (register installed_apps registry_with_article
                     not_a_document None).2 =
    model_doc_types registry_with_article ∧
  app_documents (register installed_apps registry_with_article
                   not_a_document None).2 =
    app_documents registry_with_article.
Proof.
  split; [reflexivity |].
  apply (RegistryFacts.register_failure_atomic installed_apps
           registry_with_article not_a_document None).
  reflexivity.
Defined.

Lemma document_from_model_fields_witness :
  NoDup (map field_name
           (meta_fields article_model ++ meta_many_to_many article_model)) ∧
  let cls := document_from_model None article_model "DocType" false
               None "default" None None None in
  let fs := meta_fields article_model ++ meta_many_to_many article_model in
  ∃ m,
    let base := initial_attrs article_model m in
    class_attrs cls = list_to_map (derived_fields document_field fs) ∪ base ∧
    (∀ name, is_schema_field (base !! name) = false) ∧
    Forall (fun f =>
              class_attrs cls !! field_name f =
              if is_auto_field (field_cls f) then base !! field_name f
              else Some (AField (document_field f))) fs ∧
    Forall (fun f =>
              is_schema_field (class_attrs cls !! field_name f) =
              negb (is_auto_field (field_cls f))) fs ∧
    (∀ native_attr native_str text attrs z,
       get_id native_attr native_str
         (VModel text (("pk"%string, VInt z) :: attrs)) =
       Ok (str_of_int z)).
Proof.
  assert (Hnames : NoDup (map field_name
            (meta_fields article_model ++ meta_many_to_many article_model))).
  { refine (bool_decide_unpack _ _). vm_compute. exact I. }
  split; [exact Hnames |].
  apply (SchemaFacts.document_from_model_fields None article_model
           "DocType" false None "default" None None None Hnames).
Defined.

(** The derived schema of [Article]: no entry for the automatic [id]. *)
Example article_schema :
  let cls := document_from_model None article_model "DocType" false
               None "default" None None None in
  class_attrs cls !! "id"%string = None ∧
  class_attrs cls !! "published"%string = Some (AField Date) ∧
  is_schema_field (class_attrs cls !! "title"%string) = true ∧
  is_schema_field (class_attrs cls !! "tags"%string) = true ∧
  class_name cls = "ArticleDoc"%string.
Proof. repeat split; reflexivity. Qed.

End Examples.

(** ** seeker/mapping.py: more on resolving paths *)

Module PathFacts.

Import PyStrFacts Mapping MappingFacts Scenario.

Section WithNatives.

Variable native_attr : value → string → option value.
Variable native_str : value → string.

Local Abbreviation get_attr := (get_attr native_attr).
Local Abbreviation has_attr := (has_attr native_attr).
Local Abbreviation follow_loop := (follow_loop native_attr native_str).
Local Abbreviation follow := (follow native_attr native_str).
Local Abbreviation follow_parts := (follow_parts native_attr native_str).
Local Abbreviation walk := (walk native_attr).

(** X1: [follow] computes the traversal of the list of segments of its
    path: handing the joined rest of the path to the recursive call, which
    splits it again, gives the same segments, except that a rest made of
    one empty segment (a path ending with the separator right after a
    relation) is the empty path, on which each related record is rendered
    as text. *)
Theorem follow_traverses_segments obj path :
  follow obj path = follow_parts obj (path_parts path).
Proof.
  rewrite follow_unfold. apply follow_loop_parts, path_parts_canonical.
Qed.

(** X2: once the traversal holds null (a null relation, or an attribute
    that is missing), every longer path gives null: no segment resolves on
    null and none raises. *)
Theorem follow_through_null r path pre rest :
  path_parts path = pre ++ rest →
  walk r pre = Some VNone →
  follow r path = Ok VNone.
Proof.
  intros Hparts Hw.
  rewrite follow_unfold, Hparts, (follow_loop_walk _ _ _ _ _ _ _ Hw).
  apply follow_loop_none.
Qed.

(** X3: following a to-one relation composes: when attribute [a] of [r] is
    an object [o] that is not a manager, and [r] has no display method for
    [a], [follow(r, "a__p")] is [follow(o, "p")] for every non-empty path
    [p]. *)
Theorem follow_to_one r a p o :
  segment a = true →
  p ≠ EmptyString →
  has_attr r (display_name a) = false →
  get_attr r a = Some o →
  manager_all o = None →
  follow r (a +:+ dunder +:+ p) = follow o p.
Proof.
  intros Ha Hp Hd Hattr Hman.
  rewrite (follow_unfold _ _ r), (path_parts_segment _ _ Ha).
  rewrite follow_loop_step; rewrite ?Hattr; [| done | done].
  rewrite (follow_unfold _ _ o). by destruct p.
Qed.

(** X4: a to-many relation met at any depth of the path, behind to-one
    steps, makes the result a list with exactly one entry per related
    record, in the order of the relation, each entry being the result of
    [follow] on that record with the rest of the path (a list again when
    the rest crosses another relation). *)
Theorem follow_relation_at_depth r path pre a rest o related v :
  path_parts path = pre ++ a :: rest →
  walk r pre = Some o →
  has_attr o (display_name a) = false →
  get_attr o a = Some (VManager related) →
  follow r path = Ok v →
  ∃ vs, v = VList vs ∧ length vs = length related ∧
        Forall2 (fun o' v' => follow o' (join dunder rest) = Ok v')
                related vs.
Proof. apply follow_crossing_relation. Qed.

End WithNatives.

Lemma follow_through_null_witness :
  path_parts "author__name__first" =
    [ "author"%string ] ++ [ "name"%string; "first"%string ] ∧
  Mapping.walk no_native_attr article_without_author [ "author"%string ] =
    Some VNone ∧
  Mapping.follow no_native_attr no_native_str article_without_author
    "author__name__first" = Ok VNone.
Proof.
  split; [reflexivity |]. split; [reflexivity |].
  apply (follow_through_null no_native_attr no_native_str
           article_without_author "author__name__first"
           [ "author"%string ] [ "name"%string; "first"%string ]);
    reflexivity.
Defined.

Lemma follow_to_one_witness :
  segment "author" = true ∧
  "role"%string ≠ EmptyString ∧
  Mapping.has_attr no_native_attr article_with_status
    (display_name "author") = false ∧
  Mapping.get_attr no_native_attr article_with_status "author" =
    Some (VModel "Ann" [ ("role"%string, VStr "e");
                         ("get_role_display"%string,
                          VMethod (VStr "Editor")) ]) ∧
  Mapping.follow no_native_attr no_native_str article_with_status
    ("author" +:+ dunder +:+ "role") =
  Mapping.follow no_native_attr no_native_str
    (VModel "Ann" [ ("role"%string, VStr "e");
                    ("get_role_display"%string, VMethod (VStr "Editor")) ])
    "role".
Proof.
  split; [reflexivity |]. split; [discriminate |].
  split; [reflexivity |]. split; [reflexivity |].
  apply (follow_to_one no_native_attr no_native_str article_with_status
           "author" "role"
           (VModel "Ann" [ ("role"%string, VStr "e");
                           ("get_role_display"%string,
                            VMethod (VStr "Editor")) ]));
    [reflexivity | discriminate | reflexivity | reflexivity | reflexivity].
Defined.

Lemma follow_relation_at_depth_witness :
  path_parts "articles__tags__name" =
    [] ++ "articles"%string :: [ "tags"%string; "name"%string ] ∧
  Mapping.follow no_native_attr no_native_str blog "articles__tags__name" =
    Ok (VList [ VList [ VStr "a"; VStr "b" ]; VNone ]) ∧
  ∃ vs,
    VList [ VList [ VStr "a"; VStr "b" ]; VNone ] = VList vs ∧
    length vs = length [ article; article_without_author ] ∧
    Forall2 (fun o' v' =>
               Mapping.follow no_native_attr no_native_str o'
                 (join dunder [ "tags"%string; "name"%string ]) = Ok v')
            [ article; article_without_author ] vs.
Proof.
  split; [reflexivity |]. split; [reflexivity |].
  apply (follow_relation_at_depth no_native_attr no_native_str blog
           "articles__tags__name" [] "articles"
           [ "tags"%string; "name"%string ] blog
           [ article; article_without_author ]);
    reflexivity.
Defined.

End PathFacts.

(** ** seeker/mapping.py: more on enumerating the records *)

Module EnumerationFacts.

Import Mapping BatchFacts.

(** X5: with a positive batch size (the default 1000 included), the batch
    mode of [get_objects] yields exactly the records of the queryset that
    [should_index] accepts, each once, in the order of the primary keys:
    no record is skipped or repeated at the boundaries of the batches. *)
Theorem get_objects_batch_yields_all {A : Type} seeker_batch_size
    (should_index : A → bool) (qs : queryset A) :
  0 < batch_size_setting seeker_batch_size →
  get_objects seeker_batch_size should_index qs false =
  Ok (filter (fun obj => should_index obj = true) (ordered_by_pk qs)).
Proof. apply get_objects_batch_complete. Qed.

(** X6: a batch size that is not positive breaks the batch mode: with
    [SEEKER_BATCH_SIZE = 0] the [range] raises [ValueError] before any
    record is yielded, and with a negative size the range is empty, so no
    record is yielded at all, whatever the queryset holds. *)
Theorem get_objects_bad_batch_size {A : Type} B
    (should_index : A → bool) (qs : queryset A) :
  B ≤ 0 →
  get_objects (Some B) should_index qs false =
  if B =? 0 then Raise ValueError else Ok [].
Proof.
  intros HB. unfold get_objects.
  change (batch_size_setting (Some B)) with B. cbv zeta.
  unfold batch_windows, py_range.
  destruct (Z.eqb_spec B 0) as [->|HB0]; [done |].
  assert (range_len 0 (Z.of_nat (length (ordered_by_pk qs))) B = O) as ->;
    [| done].
  unfold range_len.
  destruct (Z.ltb_spec 0 B) as [|_]; [lia |].
  destruct (Z.ltb_spec (Z.of_nat (length (ordered_by_pk qs))) 0) as [|_];
    [lia | done].
Qed.

(** X7: the two modes of [get_objects] yield the same records: when the
    cursor iterates the rows of the queryset in some order, the records
    yielded with [cursor=True] are a permutation of those yielded in
    batches. *)
Theorem get_objects_modes_agree {A : Type} seeker_batch_size
    (should_index : A → bool) (qs : queryset A) :
  0 < batch_size_setting seeker_batch_size →
  cursor_rows qs ≡ₚ ordered_by_pk qs →
  ∃ by_cursor in_batches,
    get_objects seeker_batch_size should_index qs true = Ok by_cursor ∧
    get_objects seeker_batch_size should_index qs false = Ok in_batches ∧
    by_cursor ≡ₚ in_batches.
Proof.
  intros HB Hperm. eexists _, _.
  split; [reflexivity |].
  split; [by apply get_objects_batch_complete |].
  by rewrite Hperm.
Qed.

Lemma range_len_ceiling T B :
  0 ≤ T → 0 < B → range_len 0 T B = Z.to_nat ((T + B - 1) / B).
Proof.
  intros HT HB. unfold range_len.
  destruct (Z.ltb_spec 0 B) as [_|]; [| lia].
  destruct (Z.ltb_spec 0 T) as [HT'|HT'].
  - f_equal. replace (T + B - 1) with (T - 0 - 1 + 1 * B) by lia.
    by rewrite Z.div_add by lia.
  - assert (T = 0) as -> by lia.
    rewrite Z.div_small by lia. done.
Qed.

Lemma range_from_length n s step : length (range_from n s step) = n.
Proof.
  revert s. induction n as [|n IH]; intros s; [done |].
  simpl. by rewrite IH.
Qed.

(** X8: the batch mode keeps its promise on memory and queries: for [T]
    rows and a batch size [B > 0] it takes [ceil(T / B)] slices, and no
    slice holds more than [B] rows. *)
Theorem batch_slices_bounded {A : Type} (rows : list A) B ws :
  0 < B →
  batch_windows (Z.of_nat (length rows)) B = Ok ws →
  length ws = Z.to_nat ((Z.of_nat (length rows) + B - 1) / B) ∧
  Forall (fun w : Z * Z => (length (slice rows w.1 w.2) ≤ Z.to_nat B)%nat) ws.
Proof.
  intros HB Hws. rewrite (batch_windows_eq _ _ HB) in Hws.
  injection Hws as <-. split.
  - rewrite length_map, range_from_length.
    apply range_len_ceiling; lia.
  - apply Forall_forall. intros w Hw.
    apply list_elem_of_In, in_map_iff in Hw as (start & <- & _).
    cbn [fst snd]. unfold slice. rewrite length_take. lia.
Qed.

Lemma get_objects_batch_yields_all_witness :
  0 < batch_size_setting (Some 2) ∧
  get_objects (Some 2) (fun n : nat => Nat.odd n)
    {| ordered_by_pk := [ 1; 2; 3; 4; 5 ]%nat;
       cursor_rows := [ 3; 1; 2; 5; 4 ]%nat |} false =
  Ok (filter (fun obj => Nat.odd obj = true) [ 1; 2; 3; 4; 5 ]%nat).
Proof.
  split; [reflexivity |].
  apply (get_objects_batch_yields_all (Some 2) (fun n : nat => Nat.odd n)
           {| ordered_by_pk := [ 1; 2; 3; 4; 5 ]%nat;
              cursor_rows := [ 3; 1; 2; 5; 4 ]%nat |}).
  reflexivity.
Defined.

Lemma get_objects_bad_batch_size_witness :
  -5 ≤ 0 ∧
  get_objects (Some (-5)) (fun _ : nat => true)
    {| ordered_by_pk := [ 1; 2; 3 ]%nat; cursor_rows := [ 1; 2; 3 ]%nat |}
    false =
  (if -5 =? 0 then Raise ValueError else Ok []).
Proof.
  split; [lia |].
  apply (get_objects_bad_batch_size (-5) (fun _ : nat => true)
           {| ordered_by_pk := [ 1; 2; 3 ]%nat;
              cursor_rows := [ 1; 2; 3 ]%nat |}).
  lia.
Defined.

Lemma get_objects_modes_agree_witness :
  0 < batch_size_setting None ∧
  ([ 3; 1; 2 ]%nat : list nat) ≡ₚ [ 1; 2; 3 ]%nat ∧
  ∃ by_cursor in_batches,
    get_objects None (fun n : nat => Nat.odd n)
      {| ordered_by_pk := [ 1; 2; 3 ]%nat; cursor_rows := [ 3; 1; 2 ]%nat |}
      true = Ok by_cursor ∧
    get_objects None (fun n : nat => Nat.odd n)
      {| ordered_by_pk := [ 1; 2; 3 ]%nat; cursor_rows := [ 3; 1; 2 ]%nat |}
      false = Ok in_batches ∧
    by_cursor ≡ₚ in_batches.
Proof.
  assert (Hperm : ([ 3; 1; 2 ]%nat : list nat) ≡ₚ [ 1; 2; 3 ]%nat).
  { change ([ 3 ] ++ [ 1; 2 ] ≡ₚ [ 1; 2 ] ++ [ 3 ])%nat.
    apply Permutation_app_comm. }
  split; [reflexivity |]. split; [exact Hperm |].
  apply (get_objects_modes_agree None (fun n : nat => Nat.odd n)
           {| ordered_by_pk := [ 1; 2; 3 ]%nat;
              cursor_rows := [ 3; 1; 2 ]%nat |});
    [reflexivity | exact Hperm].
Defined.

Lemma batch_slices_bounded_witness :
  0 < 2 ∧
  batch_windows (Z.of_nat (length [ 1; 2; 3; 4; 5 ]%nat)) 2 =
    Ok [ (0, 2); (2, 4); (4, 5) ] ∧
  length [ (0, 2); (2, 4); (4, 5) ] =
    Z.to_nat ((Z.of_nat (length [ 1; 2; 3; 4; 5 ]%nat) + 2 - 1) / 2) ∧
  Forall (fun w : Z * Z =>
            (length (slice [ 1; 2; 3; 4; 5 ]%nat w.1 w.2) ≤ Z.to_nat 2)%nat)
         [ (0, 2); (2, 4); (4, 5) ].
Proof.
  split; [lia |]. split; [reflexivity |].
  apply (batch_slices_bounded [ 1; 2; 3; 4; 5 ]%nat 2
           [ (0, 2); (2, 4); (4, 5) ]);
    [lia | reflexivity].
Defined.

End EnumerationFacts.

(** ** seeker/mapping.py: more on the document of a record *)

Module DocumentFacts.

Import PyStr Mapping MappingFacts DataFacts Scenario.

Lemma str_of_int_inj z1 z2 : str_of_int z1 = str_of_int z2 → z1 = z2.
Proof.
  unfold str_of_int. intros Heq.
  assert (Hnorm : ∀ z, NilZero.int_of_string (NilZero.string_of_int (Z.to_int z))
                       = Some (Z.to_int z)).
  { intros z. apply NilZero.isi; destruct z as [|p|p]; simpl; try done;
      intros [= Hp]; by apply (DecimalPos.Unsigned.to_uint_nonnil p). }
  apply DecimalZ.to_int_inj.
  pose proof (Hnorm z1) as H1. rewrite Heq, Hnorm in H1. by injection H1.
Qed.

Section WithNatives.

Variable native_attr : value → string → option value.
Variable native_str : value → string.

Local Abbreviation get_attr := (get_attr native_attr).
Local Abbreviation follow := (follow native_attr native_str).
Local Abbreviation get_data_loop := (get_data_loop native_attr native_str).
Local Abbreviation get_data := (get_data native_attr native_str).
Local Abbreviation get_id := (get_id native_attr native_str).

Lemma get_data_loop_ok obj names : ∀ data,
  Forall (fun name => ∃ v, follow obj name = Ok v) names →
  ∃ d, get_data_loop obj names data = Ok d.
Proof.
  induction names as [|n names IH]; intros data Hall; [by eexists |].
  apply Forall_cons in Hall as [[v Hv] Hall].
  cbn [Mapping.get_data_loop]. rewrite Hv. cbn [bind]. by apply IH.
Qed.

(** X9: whenever [get_data] returns a dictionary, its keys are exactly the
    names of the mapping, and each name is bound to what [follow] returns
    for it. *)
Theorem get_data_keys mapping obj d :
  get_data mapping obj = Ok d →
  dom d = list_to_set mapping ∧
  Forall (fun name => ∃ v, follow obj name = Ok v ∧ d !! name = Some v)
         mapping.
Proof.
  intros Hd.
  pose proof (get_data_spec _ _ _ _ _ Hd) as Hspec.
  split.
  - apply set_eq. intros name.
    rewrite elem_of_dom, elem_of_list_to_set.
    destruct (Hspec name) as [Hin Hout]. split.
    + intros Hsome. destruct (decide (name ∈ mapping)) as [|Hnot]; [done |].
      rewrite (Hout Hnot) in Hsome. by destruct Hsome.
    + intros Hname. destruct (Hin Hname) as (v & _ & ->). by eexists.
  - apply Forall_forall. intros name Hname. by apply (Hspec name).
Qed.

(** X10: the order in which the mapping lists its names does not matter:
    when [get_data] returns a dictionary for a mapping, it returns the
    same dictionary for any reordering of it. *)
Theorem get_data_order_irrelevant mapping mapping' obj d :
  mapping ≡ₚ mapping' →
  get_data mapping obj = Ok d →
  get_data mapping' obj = Ok d.
Proof.
  intros Hperm Hd.
  pose proof (get_data_spec _ _ _ _ _ Hd) as Hspec.
  destruct (get_data_loop_ok obj mapping' ∅) as [d' Hd'].
  { apply Forall_forall. intros name Hname. rewrite <- Hperm in Hname.
    destruct (proj1 (Hspec name) Hname) as (v & Hv & _). by exists v. }
  pose proof (get_data_spec _ _ _ _ _ Hd') as Hspec'.
  change (get_data mapping' obj = Ok d') in Hd'. rewrite Hd'.
  f_equal. apply map_eq. intros name.
  destruct (Hspec name) as [Hin Hout], (Hspec' name) as [Hin' Hout'].
  destruct (decide (name ∈ mapping)) as [Hname|Hname].
  - destruct (Hin Hname) as (v & Hv & ->).
    rewrite Hperm in Hname. destruct (Hin' Hname) as (v' & Hv' & ->).
    rewrite Hv in Hv'. by injection Hv' as ->.
  - rewrite (Hout Hname). rewrite Hperm in Hname. by rewrite (Hout' Hname).
Qed.

(** X11: [get_id] keeps integer primary keys apart: two records whose
    [pk] are integers get the same id only when the keys are equal, so ids
    are unique within a document type whenever the primary keys are. *)
Theorem get_id_injective r1 r2 z1 z2 :
  get_attr r1 "pk" = Some (VInt z1) →
  get_attr r2 "pk" = Some (VInt z2) →
  get_id r1 = get_id r2 →
  z1 = z2.
Proof.
  unfold Mapping.get_id. intros -> ->. cbn [text_type].
  intros [= Heq]. by apply str_of_int_inj.
Qed.

End WithNatives.

Lemma get_data_keys_witness :
  Mapping.get_data no_native_attr no_native_str article_mapping article =
    Ok ({[ "title"%string := VStr "Hello";
           "tags__name"%string := VList [ VStr "a"; VStr "b" ] ]}) ∧
  dom ({[ "title"%string := VStr "Hello";
          "tags__name"%string := VList [ VStr "a"; VStr "b" ] ]}
       : gmap string value) = list_to_set article_mapping ∧
  Forall (fun name =>
            ∃ v, Mapping.follow no_native_attr no_native_str article name
                   = Ok v ∧
                 ({[ "title"%string := VStr "Hello";
                     "tags__name"%string := VList [ VStr "a"; VStr "b" ] ]}
                  : gmap string value) !! name = Some v)
         article_mapping.
Proof.
  split; [reflexivity |].
  apply (get_data_keys no_native_attr no_native_str article_mapping article).
  reflexivity.
Defined.

Lemma get_data_order_irrelevant_witness :
  article_mapping ≡ₚ [ "tags__name"%string; "title"%string ] ∧
  Mapping.get_data no_native_attr no_native_str article_mapping article =
    Ok ({[ "title"%string := VStr "Hello";
           "tags__name"%string := VList [ VStr "a"; VStr "b" ] ]}) ∧
  Mapping.get_data no_native_attr no_native_str
    [ "tags__name"%string; "title"%string ] article =
    Ok ({[ "title"%string := VStr "Hello";
           "tags__name"%string := VList [ VStr "a"; VStr "b" ] ]}).
Proof.
  assert (Hperm : article_mapping ≡ₚ [ "tags__name"%string; "title"%string ]).
  { apply perm_swap. }
  split; [exact Hperm |]. split; [reflexivity |].
  apply (get_data_order_irrelevant no_native_attr no_native_str
           article_mapping [ "tags__name"%string; "title"%string ] article);
    [exact Hperm | reflexivity].
Defined.

Lemma get_id_injective_witness :
  Mapping.get_attr no_native_attr article "pk" = Some (VInt 5) ∧
  Mapping.get_attr no_native_attr article_with_status "pk" = Some (VInt 5) ∧
  Mapping.get_id no_native_attr no_native_str article =
    Mapping.get_id no_native_attr no_native_str article_with_status ∧
  5 = 5.
Proof.
  split; [reflexivity |]. split; [reflexivity |]. split; [reflexivity |].
  apply (get_id_injective no_native_attr no_native_str
           article article_with_status 5 5);
    reflexivity.
Defined.

End DocumentFacts.

(** ** seeker/mapping.py: more on the derived class, and labels *)

Module LabelFacts.

Import PyStrFacts Mapping SchemaFacts Scenario.

(** X12: as long as no indexed field of the model is named [Meta] or
    [_model], the class built by [document_from_model] keeps its two own
    attributes: [_model] is the model, and [Meta] holds the index (the
    argument, else the [SEEKER_INDEX] setting, else ["seeker"]), the
    connection, and the document type (the argument, else the name of the
    model in lower case). *)
Theorem document_from_model_meta seeker_index model base_name base_has_meta
    index using_ doc_type mapping field_factory :
  Forall (fun f => is_auto_field (field_cls f) = true ∨
                   (field_name f ≠ "Meta"%string ∧
                    field_name f ≠ "_model"%string))
         (meta_fields model ++ meta_many_to_many model) →
  let cls := document_from_model seeker_index model base_name base_has_meta
               index using_ doc_type mapping field_factory in
  class_attrs cls !! "_model"%string = Some (AModel model) ∧
  class_attrs cls !! "Meta"%string =
    Some (AMeta {| meta_index :=
                     default (default "seeker"%string seeker_index) index;
                   meta_using := using_;
                   meta_doc_type :=
                     default (lower (model_name model)) doc_type;
                   meta_mapping := mapping;
                   meta_inherits := base_has_meta |}) ∧
  class_name cls = model_name model +:+ "Doc".
Proof.
  intros Hnames cls. unfold cls, document_from_model. cbn [class_attrs class_name].
  split; [| split; [| done]].
  - rewrite add_fields_other; [done |].
    eapply Forall_impl; [exact Hnames |]. intros f [Hf|[_ Hf]]; [by left | by right].
  - rewrite add_fields_other; [done |].
    eapply Forall_impl; [exact Hnames |]. intros f [Hf|[Hf _]]; [by left | by right].
Qed.

Lemma endswith_app s t : endswith (s +:+ t) t = true.
Proof.
  induction s as [|c s IH].
  - change (EmptyString +:+ t) with t.
    assert (Hrefl : String.eqb t t = true) by apply String.eqb_refl.
    destruct t as [|c t]; [done |].
    cbn [endswith]. by rewrite Hrefl.
  - change (String c s +:+ t) with (String c (s +:+ t)).
    cbn [endswith]. rewrite IH. apply orb_true_r.
Qed.

Lemma substring_app s t :
  String.substring 0 (String.length s) (s +:+ t) = s.
Proof.
  induction s as [|c s IH]; [by destruct t |].
  simpl. by rewrite IH.
Qed.

Lemma strip_raw_app name : strip_raw (name +:+ ".raw") = name.
Proof.
  unfold strip_raw. rewrite endswith_app, string_length_app.
  replace (String.length name + String.length ".raw" - 4)%nat
    with (String.length name) by (simpl; lia).
  apply substring_app.
Qed.

(** X13: the label of the [raw] subfield of a field is the label of the
    field: [label_for_field] cuts one trailing [.raw] before it looks the
    field up, whether the model knows the field or not. *)
Theorem label_for_field_raw verbose_name name :
  endswith name ".raw" = false →
  label_for_field verbose_name (name +:+ ".raw") =
  label_for_field verbose_name name.
Proof.
  intros Hname. unfold label_for_field.
  rewrite strip_raw_app.
  assert (strip_raw name = name) as ->; [| done].
  unfold strip_raw. by rewrite Hname.
Qed.

Lemma lower_char_underscore c :
  Ascii.eqb (lower_char c) "_" = Ascii.eqb c "_".
Proof. by destruct c as [[] [] [] [] [] [] [] []]. Qed.

Lemma upper_char_underscore c :
  Ascii.eqb (upper_char c) "_" = Ascii.eqb c "_".
Proof. by destruct c as [[] [] [] [] [] [] [] []]. Qed.

Lemma has_char_lower s : has_char "_" (lower s) = has_char "_" s.
Proof.
  induction s as [|c s IH]; [done |].
  cbn [lower has_char]. by rewrite lower_char_underscore, IH.
Qed.

Lemma has_char_capitalize s : has_char "_" (capitalize s) = has_char "_" s.
Proof.
  destruct s as [|c s]; [done |].
  cbn [capitalize has_char]. by rewrite upper_char_underscore, has_char_lower.
Qed.

Lemma has_char_replace s : has_char "_" (replace_char "_" " " s) = false.
Proof.
  induction s as [|c s IH]; [done |].
  cbn [replace_char has_char]. rewrite IH, orb_false_r.
  destruct (Ascii.eqb_spec c "_") as [_|Hc]; [done |].
  by apply Ascii.eqb_neq.
Qed.

Lemma length_lower s : String.length (lower s) = String.length s.
Proof. induction s as [|c s IH]; [done |]. simpl. by rewrite IH. Qed.

Lemma length_replace_char old new s :
  String.length (replace_char old new s) = String.length s.
Proof. induction s as [|c s IH]; [done |]. simpl. by rewrite IH. Qed.

(** X14: for a name in ASCII that the model does not know, the label is
    the name without its [.raw] suffix, humanized: it has the same length
    and no underscore is left in it. *)
Theorem label_for_field_fallback verbose_name name :
  is_ascii (strip_raw name) = true →
  verbose_name (strip_raw name) = None →
  has_char "_" (label_for_field verbose_name name) = false ∧
  String.length (label_for_field verbose_name name) =
    String.length (strip_raw name).
Proof.
  intros _ Hnone. unfold label_for_field. rewrite Hnone. split.
  - by rewrite has_char_capitalize, has_char_replace.
  - destruct (strip_raw name) as [|c s]; [done |].
    simpl. by rewrite length_lower, length_replace_char.
Qed.

Lemma document_from_model_meta_witness :
  Forall (fun f => is_auto_field (field_cls f) = true ∨
                   (field_name f ≠ "Meta"%string ∧
                    field_name f ≠ "_model"%string))
         (meta_fields article_model ++ meta_many_to_many article_model) ∧
  let cls := document_from_model (Some "blog_index"%string) article_model
               "DocType" false None "default" None None None in
  class_attrs cls !! "_model"%string = Some (AModel article_model) ∧
  class_attrs cls !! "Meta"%string =
    Some (AMeta {| meta_index := "blog_index";
                   meta_using := "default";
                   meta_doc_type := "article";
                   meta_mapping := None;
                   meta_inherits := false |}) ∧
  class_name cls = "ArticleDoc"%string.
Proof.
  assert (Hnames :
    Forall (fun f => is_auto_field (field_cls f) = true ∨
                     (field_name f ≠ "Meta"%string ∧
                      field_name f ≠ "_model"%string))
           (meta_fields article_model ++ meta_many_to_many article_model)).
  { repeat constructor; discriminate. }
  split; [exact Hnames |].
  apply (document_from_model_meta (Some "blog_index"%string) article_model
           "DocType" false None "default" None None None Hnames).
Defined.

Lemma label_for_field_raw_witness :
  endswith "first_name" ".raw" = false ∧
  label_for_field (fun _ => None) ("first_name" +:+ ".raw") =
  label_for_field (fun _ => None) "first_name".
Proof.
  split; [reflexivity |].
  apply (label_for_field_raw (fun _ => None) "first_name"). reflexivity.
Defined.

Lemma label_for_field_fallback_witness :
  is_ascii (strip_raw "first_name.raw") = true ∧
  (fun _ : string => @None string) (strip_raw "first_name.raw") = None ∧
  has_char "_" (label_for_field (fun _ => None) "first_name.raw") = false ∧
  String.length (label_for_field (fun _ => None) "first_name.raw") =
    String.length (strip_raw "first_name.raw").
Proof.
  split; [reflexivity |]. split; [reflexivity |].
  apply (label_for_field_fallback (fun _ => None) "first_name.raw");
    reflexivity.
Defined.

(** The label of an unknown field, and of a field with a verbose name. *)
Example label_examples :
  label_for_field (fun _ => None) "first_name.raw" = "First name"%string ∧
  label_for_field (fun n => if String.eqb n "title"
                            then Some "headline of the Article"%string
                            else None) "title" =
    "Headline of the article"%string.
Proof. split; reflexivity. Qed.

End LabelFacts.

(** ** seeker/registry.py: what the tables hold *)

Module RegistryInvariants.

Import Registry RegistryFacts Scenario.

Lemma setdefault_append_lookup `{Countable K} (key : K) d
    (table : gmap K (list doc_class)) :
  setdefault_append key d table !! key =
  Some (default [] (table !! key) ++ [d]).
Proof. unfold setdefault_append. apply lookup_insert_eq. Qed.

Lemma setdefault_append_lookup_ne `{Countable K} (key key' : K) d
    (table : gmap K (list doc_class)) :
  key ≠ key' →
  setdefault_append key d table !! key' = table !! key'.
Proof. intros Hne. unfold setdefault_append. by apply lookup_insert_ne. Qed.

Lemma registered_false d docs :
  registered d docs = false ↔ cid d ∉ cid <$> docs.
Proof.
  unfold registered. induction docs as [|x docs IH]; simpl.
  - split; [intros _; apply not_elem_of_nil | done].
  - rewrite orb_false_iff, IH, not_elem_of_cons, Nat.eqb_neq.
    split; intros [Hx Hrest]; (split; [congruence | done]).
Qed.

Lemma add_app_document_state app d st :
  model_documents (add_app_document app d st) = model_documents st ∧
  model_doc_types (add_app_document app d st) = model_doc_types st ∧
  current_app (add_app_document app d st) = current_app st ∧
  (app_documents (add_app_document app d st) = app_documents st ∨
   ∃ label, app_documents (add_app_document app d st) =
            setdefault_append label d (app_documents st)).
Proof.
  unfold add_app_document.
  destruct (match app with
            | Some a => app_label a
            | None => current_app st
            end) as [label|]; cbn; repeat split; eauto.
Qed.

Section WithApps.

Variable is_installed : string → bool.

Local Abbreviation register := (register is_installed).
Local Abbreviation register_all := (register_all is_installed).
Local Abbreviation preconditions := (preconditions is_installed).

(** What a call of [register] can do to the state, whatever it returns. *)
Lemma register_state st d app :
  (register st d app).2 = st ∨
  (registered d (documents st) = false ∧
   documents (register st d app).2 = documents st ++ [d] ∧
   (model_documents (register st d app).2 = model_documents st ∨
    ∃ m, queryset_model d = Some m ∧
         model_documents (register st d app).2 =
         setdefault_append m d (model_documents st)) ∧
   (model_doc_types (register st d app).2 = model_doc_types st ∨
    ∃ m n, queryset_model d = Some m ∧ doc_type_name d = Some n ∧
           model_doc_types (register st d app).2 =
           <[n := m]> (model_doc_types st)) ∧
   (app_documents (register st d app).2 = app_documents st ∨
    ∃ label, app_documents (register st d app).2 =
             setdefault_append label d (app_documents st)) ∧
   current_app (register st d app).2 = current_app st).
Proof.
  unfold Registry.register.
  destruct (is_indexable d); simpl; [| by left].
  destruct (match app with
            | Some a => negb (is_app_config a && is_installed (app_name a))
            | None => false
            end); [by left |].
  destruct (registered d (documents st)) eqn:Hreg; [by left |].
  right. split; [done |].
  destruct (is_model_index d).
  - destruct (queryset_model d) as [m|] eqn:Hm;
      [| cbn; repeat split; eauto].
    destruct (doc_type_name d) as [n|] eqn:Hn;
      [| cbn; repeat split; eauto].
    cbn [snd].
    match goal with
    | |- context [add_app_document app d ?s] =>
        destruct (add_app_document_state app d s) as (-> & -> & -> & Happ);
        rewrite add_app_document_documents
    end.
    cbn. repeat split; eauto 10.
  - cbn [snd].
    match goal with
    | |- context [add_app_document app d ?s] =>
        destruct (add_app_document_state app d s) as (-> & -> & -> & Happ);
        rewrite add_app_document_documents
    end.
    cbn. repeat split; eauto.
Qed.

Lemma register_no_duplicates st d app :
  NoDup (cid <$> documents st) →
  NoDup (cid <$> documents (register st d app).2).
Proof.
  intros Hnd.
  destruct (register_state st d app) as [->|(Hreg & -> & _)]; [done |].
  rewrite fmap_app. apply NoDup_app. split; [done |].
  split; [| apply NoDup_singleton].
  intros c Hc [->|[]%elem_of_nil]%elem_of_cons.
  by apply registered_false in Hreg.
Qed.

(** X15: [documents] never lists a class twice: whatever calls of
    [register] are made, with whatever arguments and outcomes, a registry
    without duplicates stays without duplicates. *)
Theorem register_all_no_duplicates st calls :
  NoDup (cid <$> documents st) →
  NoDup (cid <$> documents (register_all st calls)).
Proof.
  revert st. induction calls as [|[d app] calls IH]; intros st Hnd; [done |].
  cbn [Registry.register_all]. by apply IH, register_no_duplicates.
Qed.

Lemma register_model_index st d app m n :
  preconditions d app = true →
  registered d (documents st) = false →
  is_model_index d = true →
  queryset_model d = Some m →
  doc_type_name d = Some n →
  (register st d app).1 = Ok tt ∧
  documents (register st d app).2 = documents st ++ [d] ∧
  model_documents (register st d app).2 =
    setdefault_append m d (model_documents st) ∧
  model_doc_types (register st d app).2 = <[n := m]> (model_doc_types st).
Proof.
  intros Hpre Hreg Hmi Hm Hn.
  unfold Registry.register, Registry.preconditions in *.
  destruct (is_indexable d); simpl in *; [| done].
  assert (match app with
          | Some a => negb (is_app_config a && is_installed (app_name a))
          | None => false
          end = false) as ->.
  { destruct app; [by rewrite Hpre | done]. }
  rewrite Hreg, Hmi, Hm, Hn. cbn [fst snd].
  match goal with
  | |- context [add_app_document app d ?s] =>
      destruct (add_app_document_state app d s) as (-> & -> & _);
      rewrite add_app_document_documents
  end.
  done.
Qed.

(** X16: the first registration of a model index is recorded in the three
    tables it concerns: it returns normally, the class is appended to
    [documents] and to the list of its model in [model_documents] (after
    the classes registered before for that model), and its document type
    name leads back to its model in [model_doc_types]. *)
Theorem register_records st d app m n :
  preconditions d app = true →
  registered d (documents st) = false →
  is_model_index d = true →
  queryset_model d = Some m →
  doc_type_name d = Some n →
  (register st d app).1 = Ok tt ∧
  documents (register st d app).2 = documents st ++ [d] ∧
  model_documents (register st d app).2 !! m =
    Some (default [] (model_documents st !! m) ++ [d]) ∧
  model_doc_types (register st d app).2 !! n = Some m.
Proof.
  intros Hpre Hreg Hmi Hm Hn.
  destruct (register_model_index st d app m n Hpre Hreg Hmi Hm Hn)
    as (Hok & Hdocs & -> & ->).
  by rewrite setdefault_append_lookup, lookup_insert_eq.
Qed.

(** X17: when two classes use the same document type name, the last one
    registered wins in [model_doc_types], while [model_documents] keeps
    both classes under their models. *)
Theorem register_name_collision st d1 app1 d2 app2 m1 m2 n :
  preconditions d1 app1 = true →
  preconditions d2 app2 = true →
  registered d1 (documents st) = false →
  registered d2 (documents st) = false →
  cid d1 ≠ cid d2 →
  is_model_index d1 = true → is_model_index d2 = true →
  queryset_model d1 = Some m1 → queryset_model d2 = Some m2 →
  doc_type_name d1 = Some n → doc_type_name d2 = Some n →
  let st' := register_all st [ (d1, app1); (d2, app2) ] in
  model_doc_types st' !! n = Some m2 ∧
  d1 ∈ default [] (model_documents st' !! m1) ∧
  d2 ∈ default [] (model_documents st' !! m2).
Proof.
  intros Hpre1 Hpre2 Hreg1 Hreg2 Hcid Hmi1 Hmi2 Hm1 Hm2 Hn1 Hn2 st'.
  unfold st'. cbn [Registry.register_all].
  destruct (register_model_index st d1 app1 m1 n Hpre1 Hreg1 Hmi1 Hm1 Hn1)
    as (_ & Hdocs1 & Hmd1 & Hmt1).
  assert (Hreg2' : registered d2 (documents (register st d1 app1).2) = false).
  { apply registered_false. rewrite Hdocs1, fmap_app.
    apply registered_false in Hreg2.
    rewrite elem_of_app. intros [|[|[]%elem_of_nil]%elem_of_cons]; done. }
  destruct (register_model_index _ d2 app2 m2 n Hpre2 Hreg2' Hmi2 Hm2 Hn2)
    as (_ & _ & -> & ->).
  rewrite Hmd1. split; [apply lookup_insert_eq |].
  rewrite (setdefault_append_lookup m2). split.
  - destruct (decide (m2 = m1)) as [->|Hne].
    + rewrite !setdefault_append_lookup. cbn.
      rewrite !elem_of_app, !elem_of_cons. auto.
    + rewrite (setdefault_append_lookup_ne m2 m1) by done.
      rewrite setdefault_append_lookup. cbn.
      rewrite !elem_of_app, !elem_of_cons. auto.
  - cbn. rewrite !elem_of_app, !elem_of_cons. auto.
Qed.

(** X18: a registration that fails after the assertions cannot be
    repeated: when reading [queryset().model] raises, the class is already
    in [documents] and in no other table, and registering it again returns
    at once, leaving the tables as they are. *)
Theorem register_late_failure st d app :
  preconditions d app = true →
  registered d (documents st) = false →
  is_model_index d = true →
  queryset_model d = None →
  (register st d app).1 = Raise AttributeError ∧
  documents (register st d app).2 = documents st ++ [d] ∧
  model_documents (register st d app).2 = model_documents st ∧
  model_doc_types (register st d app).2 = model_doc_types st ∧
  app_documents (register st d app).2 = app_documents st ∧
  register (register st d app).2 d app = (Ok tt, (register st d app).2).
Proof.
  intros Hpre Hreg Hmi Hm.
  assert (Hfirst : register st d app =
            (Raise AttributeError,
             {| documents := documents st ++ [d];
                model_documents := model_documents st;
                model_doc_types := model_doc_types st;
                app_documents := app_documents st;
                current_app := current_app st |})).
  { unfold Registry.register, Registry.preconditions in *.
    destruct (is_indexable d); simpl in *; [| done].
    assert (match app with
            | Some a => negb (is_app_config a && is_installed (app_name a))
            | None => false
            end = false) as ->.
    { destruct app; [by rewrite Hpre | done]. }
    by rewrite Hreg, Hmi, Hm. }
  rewrite Hfirst. cbn [fst snd documents model_documents model_doc_types
                       app_documents].
  repeat split; try done.
  rewrite register_when_registered; [by rewrite Hpre |].
  apply registered_snoc.
Qed.

Lemma register_consistent st d app :
  consistent st → consistent (register st d app).2.
Proof.
  intros (Hmodel & Happ & Htypes).
  destruct (register_state st d app)
    as [->|(_ & Hdocs & Hmd & Hmt & Had & _)]; [done |].
  assert (Hgrow : ∀ x, x ∈ documents st →
                       x ∈ documents (register st d app).2).
  { intros x Hx. rewrite Hdocs. apply elem_of_app. by left. }
  assert (Hd : d ∈ documents (register st d app).2).
  { rewrite Hdocs. apply elem_of_app. right. apply list_elem_of_here. }
  split; [| split].
  - intros m l x Hl Hx.
    destruct Hmd as [Hmd|(m0 & Hm0 & Hmd)]; rewrite Hmd in Hl.
    { destruct (Hmodel m l x Hl Hx). eauto. }
    destruct (decide (m0 = m)) as [->|Hne].
    + rewrite setdefault_append_lookup in Hl. injection Hl as <-.
      apply elem_of_app in Hx as [Hx|[->|[]%elem_of_nil]%elem_of_cons];
        [| done].
      destruct (model_documents st !! m) as [l0|] eqn:Hl0;
        [| by apply elem_of_nil in Hx].
      destruct (Hmodel m l0 x Hl0 Hx). eauto.
    + rewrite setdefault_append_lookup_ne in Hl by done.
      destruct (Hmodel m l x Hl Hx). eauto.
  - intros label l x Hl Hx.
    destruct Had as [Had|(label0 & Had)]; rewrite Had in Hl; [by eauto |].
    destruct (decide (label0 = label)) as [->|Hne].
    + rewrite setdefault_append_lookup in Hl. injection Hl as <-.
      apply elem_of_app in Hx as [Hx|[->|[]%elem_of_nil]%elem_of_cons];
        [| done].
      destruct (app_documents st !! label) as [l0|] eqn:Hl0;
        [| by apply elem_of_nil in Hx].
      by eauto.
    + rewrite setdefault_append_lookup_ne in Hl by done. by eauto.
  - intros n m Hn.
    destruct Hmt as [Hmt|(m0 & n0 & Hm0 & Hn0 & Hmt)]; rewrite Hmt in Hn.
    { destruct (Htypes n m Hn) as (x & Hx & ?). exists x. eauto. }
    destruct (decide (n0 = n)) as [->|Hne].
    + rewrite lookup_insert_eq in Hn. injection Hn as <-. by exists d.
    + rewrite lookup_insert_ne in Hn by done.
      destruct (Htypes n m Hn) as (x & Hx & ?). exists x. eauto.
Qed.

(** X19: the tables stay in step with [documents]: whatever calls of
    [register] are made, every class listed under a model or under an
    application is in [documents], a class listed under a model is a class
    of that model, and every document type name leads to the model of a
    registered class of that name. *)
Theorem register_all_consistent st calls :
  consistent st → consistent (register_all st calls).
Proof.
  revert st. induction calls as [|[d app] calls IH]; intros st Hst; [done |].
  cbn [Registry.register_all]. by apply IH, register_consistent.
Qed.

Lemma register_grows st d app :
  documents st `prefix_of` documents (register st d app).2 ∧
  (∀ m, default [] (model_documents st !! m) `prefix_of`
        default [] (model_documents (register st d app).2 !! m)) ∧
  (∀ label, default [] (app_documents st !! label) `prefix_of`
            default [] (app_documents (register st d app).2 !! label)) ∧
  dom (model_doc_types st) ⊆ dom (model_doc_types (register st d app).2).
Proof.
  destruct (register_state st d app)
    as [->|(_ & Hdocs & Hmd & Hmt & Had & _)]; [done |].
  split; [rewrite Hdocs; by apply prefix_app_r |].
  split; [| split].
  - intros m. destruct Hmd as [->|(m0 & _ & ->)]; [done |].
    destruct (decide (m0 = m)) as [->|Hne].
    + rewrite setdefault_append_lookup. cbn [default]. by apply prefix_app_r.
    + by rewrite setdefault_append_lookup_ne.
  - intros label. destruct Had as [->|(label0 & ->)]; [done |].
    destruct (decide (label0 = label)) as [->|Hne].
    + rewrite setdefault_append_lookup. cbn [default]. by apply prefix_app_r.
    + by rewrite setdefault_append_lookup_ne.
  - destruct Hmt as [->|(m0 & n0 & _ & _ & ->)]; [done |].
    rewrite dom_insert. apply union_subseteq_r.
Qed.

(** X20: the registry only grows: after any calls of [register], the
    earlier [documents] are a prefix of the later ones, so are the list of
    each model and of each application, and no document type name is
    forgotten; nothing is ever removed or reordered. *)
Theorem register_all_grows st calls :
  documents st `prefix_of` documents (register_all st calls) ∧
  (∀ m, default [] (model_documents st !! m) `prefix_of`
        default [] (model_documents (register_all st calls) !! m)) ∧
  (∀ label, default [] (app_documents st !! label) `prefix_of`
            default [] (app_documents (register_all st calls) !! label)) ∧
  dom (model_doc_types st) ⊆ dom (model_doc_types (register_all st calls)).
Proof.
  revert st. induction calls as [|[d app] calls IH]; intros st; [done |].
  cbn [Registry.register_all].
  destruct (register_grows st d app) as (Hd & Hm & Ha & Ht).
  destruct (IH (register st d app).2) as (Hd' & Hm' & Ha' & Ht').
  split; [etrans; [exact Hd | exact Hd'] |]. split; [| split].
  - intros m. etrans; [apply Hm | apply Hm'].
  - intros label. etrans; [apply Ha | apply Ha'].
  - etrans; [exact Ht | exact Ht'].
Qed.

End WithApps.

Lemma empty_registry_consistent : consistent empty_registry.
Proof.
  split; [| split]; intros ? ?; cbn; intros; by simplify_map_eq.
Qed.

Lemma register_all_no_duplicates_witness :
  NoDup (cid <$> documents empty_registry) ∧
  NoDup (cid <$> documents
           (Registry.register_all installed_apps empty_registry
              [ (article_doc, Some blog_app); (article_doc, None);
                (legacy_doc, None) ])).
Proof.
  split; [apply NoDup_nil_2 |].
  apply (register_all_no_duplicates installed_apps empty_registry).
  apply NoDup_nil_2.
Defined.

Lemma register_records_witness :
  Registry.preconditions installed_apps article_doc (Some blog_app) = true ∧
  registered article_doc (documents empty_registry) = false ∧
  (Registry.register installed_apps empty_registry article_doc
     (Some blog_app)).1 = Ok tt ∧
  documents (Registry.register installed_apps empty_registry article_doc
               (Some blog_app)).2 =
    documents empty_registry ++ [ article_doc ] ∧
  model_documents (Registry.register installed_apps empty_registry
                     article_doc (Some blog_app)).2 !! 7%nat =
    Some (default [] (model_documents empty_registry !! 7%nat)
          ++ [ article_doc ]) ∧
  model_doc_types (Registry.register installed_apps empty_registry
                     article_doc (Some blog_app)).2 !! "article"%string =
    Some 7%nat.
Proof.
  split; [reflexivity |]. split; [reflexivity |].
  apply (register_records installed_apps empty_registry article_doc
           (Some blog_app) 7%nat "article");
    reflexivity.
Defined.

Lemma register_name_collision_witness :
  cid article_doc ≠ cid legacy_doc ∧
  let st' := Registry.register_all installed_apps empty_registry
               [ (article_doc, Some blog_app); (legacy_doc, None) ] in
  model_doc_types st' !! "article"%string = Some 9%nat ∧
  article_doc ∈ default [] (model_documents st' !! 7%nat) ∧
  legacy_doc ∈ default [] (model_documents st' !! 9%nat).
Proof.
  split; [discriminate |].
  apply (register_name_collision installed_apps empty_registry
           article_doc (Some blog_app) legacy_doc None 7%nat 9%nat
           "article");
    first [reflexivity | discriminate].
Defined.

Lemma register_late_failure_witness :
  Registry.preconditions installed_apps broken_doc None = true ∧
  registered broken_doc (documents registry_with_article) = false ∧
  (Registry.register installed_apps registry_with_article broken_doc
     None).1 = Raise AttributeError ∧
  documents (Registry.register installed_apps registry_with_article
               broken_doc None).2 =
    documents registry_with_article ++ [ broken_doc ] ∧
  model_documents (Registry.register installed_apps registry_with_article
                     broken_doc None).2 =
    model_documents registry_with_article ∧
  model_doc_types (Registry.register installed_apps registry_with_article
                     broken_doc None).2 =
    model_doc_types registry_with_article ∧
  app_documents (Registry.register installed_apps registry_with_article
                   broken_doc None).2 =
    app_documents registry_with_article ∧
  Registry.register installed_apps
    (Registry.register installed_apps registry_with_article broken_doc
       None).2 broken_doc None =
    (Ok tt, (Registry.register installed_apps registry_with_article
               broken_doc None).2).
Proof.
  split; [reflexivity |]. split; [reflexivity |].
  apply (register_late_failure installed_apps registry_with_article
           broken_doc None);
    reflexivity.
Defined.

Lemma register_all_consistent_witness :
  consistent empty_registry ∧
  consistent (Registry.register_all installed_apps empty_registry
                [ (article_doc, Some blog_app); (broken_doc, None);
                  (legacy_doc, None) ]).
Proof.
  split; [exact empty_registry_consistent |].
  apply (register_all_consistent installed_apps empty_registry).
  exact empty_registry_consistent.
Defined.

End RegistryInvariants.
